(** * The advanced multi-strategy byte codec of [compress.c]

    A shallow embedding of [find_pattern], [is_delta_sequence],
    [can_nibble_pack], [advanced_compress] and [advanced_decompress], and the
    properties of the encoder/decoder pair.

    Conventions of the embedding.
    - A [uint8_t] is a [Z] in [0, 256); a buffer is a [list Z].  Casts to
      [uint8_t] are written [u8] (reduction modulo 256).
    - Cursors, counters and lengths ([size_t] values that are only incremented
      and compared, and are bounded by the size of a buffer) are [nat].  The
      one [size_t] computation that wraps around, the score of [find_pattern],
      is carried out in [Z] modulo [2^64] ([size_wrap]).
    - [int] arithmetic (deltas) is [Z]; [&] on a negative [int] is [Z.land],
      which agrees with two's complement.
    - Every [while (c) n++] loop is [count_while] with the loop's condition
      and a number of rounds the loop cannot exceed.
    - The in-place interface (result copied back into [data_ptr], length
      returned) is modelled by returning the bytes written; the allocation
      failure paths and the capacity of the caller's buffer for the copy-back
      are outside the model. *)

From Stdlib Require Import ZArith List Bool Lia Arith.
Import ListNotations.
Open Scope Z_scope.

(** ** Format constants *)

Definition MODE_RLE : Z := 0x80.
Definition MODE_DELTA : Z := 0xC0.
Definition MODE_NIBBLE : Z := 0x40.
Definition MODE_LITERAL : Z := 0x00.
Definition MODE_MASK : Z := 0xC0.
Definition LENGTH_MASK : Z := 0x3F.

Definition EXT_PATTERN : Z := 0xE0.
Definition EXT_ZERO_RUN : Z := 0xF0.
Definition EXT_INCR_SEQ : Z := 0xF1.
Definition EXT_COMMON_VAL : Z := 0xF2.

Definition common_values : list Z := [0x00; 0x01; 0x02; 0x03; 0x04; 0xFF; 0x7F; 0x20].
Definition NUM_COMMON_VALUES : nat := 8.

(** ** Machine arithmetic *)

Definition is_byte (b : Z) : Prop := 0 <= b < 256.

(** [(uint8_t) x] *)
Definition u8 (x : Z) : Z := x mod 256.

(** Width of [size_t]; the result of a [size_t] expression is taken modulo
    [SIZE_MODULUS]. *)
Definition SIZE_MODULUS : Z := 2 ^ 64.
Definition size_wrap (x : Z) : Z := x mod SIZE_MODULUS.

(** A buffer whose length is a [size_t] value. *)
Definition fits_size_t (data : list Z) : Prop :=
  Z.of_nat (length data) < SIZE_MODULUS.

(** [data[i]]; every read of the encoder is guarded by a bound check in the
    source, the default is never observed there. *)
Definition byte_at (data : list Z) (i : nat) : Z := nth i data 0.

(** [&data[start]] for [len] bytes *)
Definition slice (data : list Z) (start len : nat) : list Z :=
  firstn len (skipn start data).

(** [n = n0; while (cond n) n++;], run for at most [rounds] rounds. *)
Fixpoint count_while (rounds : nat) (cond : nat -> bool) (n : nat) : nat :=
  match rounds with
  | O => n
  | S r => if cond n then count_while r cond (S n) else n
  end.

(** ** Strategy evaluators *)

Record Pattern : Type := mkPattern {
  pat_bytes : list Z;     (* uint8_t pattern[16] *)
  pat_length : nat;       (* size_t length *)
  pat_count : nat         (* size_t count *)
}.

(** [Pattern best = {0};] *)
Definition Pattern_zero : Pattern := mkPattern (repeat 0 16) 0 0.

(** [memcmp(&data[a], &data[b], len) == 0] *)
Definition memcmp_eq (data : list Z) (a b len : nat) : bool :=
  forallb (fun k => byte_at data (a + k) =? byte_at data (b + k)) (seq 0 len).

(** The inner loop of [find_pattern]: [i] is [start + matches * pattern_len]
    throughout, since both are advanced together. *)
Definition count_matches (data : list Z) (start pattern_len : nat) : nat :=
  count_while (length data)
    (fun matches =>
       let i := (start + matches * pattern_len)%nat in
       (i + pattern_len <=? length data)%nat
       && memcmp_eq data start i pattern_len)
    1%nat.

(** The body of the outer loop of [find_pattern] for one [pattern_len]. *)
Definition consider_pattern (data : list Z) (start pattern_len : nat)
    (best : Pattern) : Pattern :=
  let matches := count_matches data start pattern_len in
  if (2 <=? matches)%nat then
    let saved :=
      size_wrap (Z.of_nat matches * Z.of_nat pattern_len
                 - (2 + Z.of_nat pattern_len)) in
    let best_saved :=
      size_wrap (Z.of_nat (pat_count best) * Z.of_nat (pat_length best)
                 - (2 + Z.of_nat (pat_length best))) in
    if best_saved <? saved then
      mkPattern (slice data start pattern_len ++ skipn pattern_len (pat_bytes best))
                pattern_len matches
    else best
  else best.

Fixpoint find_pattern_loop (rounds : nat) (data : list Z) (start pattern_len : nat)
    (best : Pattern) : Pattern :=
  match rounds with
  | O => best
  | S r =>
      if (pattern_len <=? 16)%nat && (start + pattern_len * 2 <=? length data)%nat
      then find_pattern_loop r data start (S pattern_len)
             (consider_pattern data start pattern_len best)
      else best
  end.

(** [pattern_len] runs over 2..16: at most 15 rounds. *)
Definition find_pattern (data : list Z) (start : nat) : Pattern :=
  find_pattern_loop 15 data start 2 Pattern_zero.

(** The [for] loop of [is_delta_sequence]: [i] is [start + length]
    throughout; the result is the final [*length]. *)
Definition delta_scan (data : list Z) (start : nat) (delta : Z) : nat :=
  count_while 63
    (fun len =>
       let i := (start + len)%nat in
       (i <? length data)%nat && (len <? 63)%nat
       && (byte_at data i =? Z.land (byte_at data (i - 1) + delta) 0x7F))
    2%nat.

(** [is_delta_sequence]: the result, with the two out-parameters.  When the
    function returns early the out-parameters are left unset; the callers do
    not read them then. *)
Definition is_delta_sequence (data : list Z) (start : nat) : bool * Z * nat :=
  if (length data <? start + 2)%nat then (false, 0, O)
  else
    let delta := byte_at data (start + 1) - byte_at data start in
    let len := delta_scan data start delta in
    ((3 <=? len)%nat && ((-15 <=? delta) && (delta <=? 15)), delta, len).

(** The [for] loop of [can_nibble_pack]: [i] is [start + length]. *)
Definition nibble_scan (data : list Z) (start : nat) : nat :=
  count_while 62
    (fun len =>
       let i := (start + len)%nat in
       (i <? length data)%nat && (i <? start + 62)%nat
       && negb (16 <=? byte_at data i))
    0%nat.

(** [can_nibble_pack]: the result and [*length]. *)
Definition can_nibble_pack (data : list Z) (start : nat) : bool * nat :=
  let len := nibble_scan data start in
  ((4 <=? len)%nat, len).

(** ** Tokens

    One constructor per emitting branch of [advanced_compress], with the
    values the branch writes. *)

Inductive token : Type :=
| ZeroRun (zero_count : nat)
| Delta (start : Z) (delta : Z) (delta_length : nat)
| Nibble (values : list Z)
| PatternTok (p : Pattern)
| CommonRun (common_idx : nat) (run_length : nat)
| Run (current : Z) (run_length : nat)
| Literal (bytes : list Z).

(** The packed bytes of a nibble token: [pairs] bytes [(hi << 4) | lo], then
    the last value in the high nibble when the length is odd. *)
Fixpoint pack_nibbles (values : list Z) : list Z :=
  match values with
  | hi :: lo :: rest => u8 (Z.lor (Z.shiftl hi 4) lo) :: pack_nibbles rest
  | [last] => [u8 (Z.shiftl last 4)]
  | [] => []
  end.

(** The bytes a branch appends to [output]. *)
Definition emit (t : token) : list Z :=
  match t with
  | ZeroRun zero_count => [EXT_ZERO_RUN; u8 (Z.of_nat zero_count)]
  | Delta start delta delta_length =>
      [Z.lor MODE_DELTA (u8 (Z.of_nat delta_length)); start; u8 (delta + 16)]
  | Nibble values =>
      Z.lor MODE_NIBBLE (u8 (Z.of_nat (length values))) :: pack_nibbles values
  | PatternTok p =>
      EXT_PATTERN
      :: u8 (Z.lor (Z.shiftl (Z.of_nat (pat_length p)) 4)
                   (Z.land (Z.of_nat (pat_count p)) 0x0F))
      :: firstn (pat_length p) (pat_bytes p)
  | CommonRun common_idx run_length =>
      [EXT_COMMON_VAL; u8 (Z.lor (Z.shiftl (Z.of_nat run_length) 4) (Z.of_nat common_idx))]
  | Run current run_length =>
      [Z.lor MODE_RLE (u8 (Z.of_nat run_length)); current]
  | Literal bytes =>
      Z.lor MODE_LITERAL (u8 (Z.of_nat (length bytes))) :: bytes
  end.

(** The amount a branch adds to [in_pos]. *)
Definition coverage (t : token) : nat :=
  match t with
  | ZeroRun zero_count => zero_count
  | Delta _ _ delta_length => delta_length
  | Nibble values => length values
  | PatternTok p => (pat_length p * pat_count p)%nat
  | CommonRun _ run_length => run_length
  | Run _ run_length => run_length
  | Literal bytes => length bytes
  end.

(** ** Encoder *)

(** The zero-run scan. *)
Definition zero_run_scan (data : list Z) (in_pos : nat) : nat :=
  count_while 255
    (fun zero_count =>
       (in_pos + zero_count <? length data)%nat
       && (byte_at data (in_pos + zero_count) =? 0x00)
       && (zero_count <? 255)%nat)
    1%nat.

(** The run scan of the standard RLE branch. *)
Definition run_scan (data : list Z) (in_pos : nat) : nat :=
  count_while 63
    (fun run_length =>
       (in_pos + run_length <? length data)%nat
       && (byte_at data (in_pos + run_length) =? byte_at data in_pos)
       && (run_length <? 63)%nat)
    1%nat.

(** The look-ahead scan of the literal loop (no cap). *)
Definition ahead_scan (data : list Z) (in_pos : nat) : nat :=
  if (in_pos + 1 <? length data)%nat then
    count_while (length data)
      (fun ahead_run =>
         (in_pos + ahead_run <? length data)%nat
         && (byte_at data (in_pos + ahead_run) =? byte_at data in_pos))
      1%nat
  else 1%nat.

(** The literal loop; the result is the final [literal_count]. *)
Fixpoint literal_scan (rounds : nat) (data : list Z) (in_pos literal_count : nat) : nat :=
  match rounds with
  | O => literal_count
  | S r =>
      if (in_pos <? length data)%nat && (literal_count <? 63)%nat then
        if (3 <=? ahead_scan data in_pos)%nat then literal_count
        else if fst (fst (is_delta_sequence data in_pos)) then literal_count
        else literal_scan r data (S in_pos) (S literal_count)
      else literal_count
  end.

(** The linear search of the palette: the first index holding [current]
    ([common_idx], [None] for -1). *)
Fixpoint common_index_from (i : nat) (values : list Z) (current : Z) : option nat :=
  match values with
  | [] => None
  | v :: rest => if v =? current then Some i else common_index_from (S i) rest current
  end.

Definition common_index (current : Z) : option nat :=
  common_index_from 0 common_values current.

(** One round of the main loop of [advanced_compress] at cursor [in_pos]
    (with [in_pos < data_size]): the branch taken. *)
Definition compress_step (data : list Z) (in_pos : nat) : token :=
  let current := byte_at data in_pos in
  if (current =? 0x00) && (3 <=? zero_run_scan data in_pos)%nat then
    ZeroRun (zero_run_scan data in_pos)
  else
    let '(is_delta, delta, delta_length) := is_delta_sequence data in_pos in
    if is_delta then Delta (byte_at data in_pos) delta delta_length
    else
      let '(is_nibble, nibble_length) := can_nibble_pack data in_pos in
      if is_nibble then Nibble (slice data in_pos nibble_length)
      else
        let pattern := find_pattern data in_pos in
        if (2 <=? pat_count pattern)%nat && (2 <=? pat_length pattern)%nat then
          PatternTok pattern
        else
          let run_length := run_scan data in_pos in
          if (3 <=? run_length)%nat then
            match common_index current with
            | Some common_idx =>
                if (run_length <=? 15)%nat then CommonRun common_idx run_length
                else Run current run_length
            | None => Run current run_length
            end
          else
            Literal (slice data in_pos (literal_scan 63 data in_pos 0)).

(** The main loop: [None] only when [rounds] is too small. *)
Fixpoint compress_loop (rounds : nat) (data : list Z) (in_pos : nat)
    : option (list token) :=
  if (in_pos <? length data)%nat then
    match rounds with
    | O => None
    | S r =>
        let t := compress_step data in_pos in
        option_map (cons t) (compress_loop r data (in_pos + coverage t))
    end
  else Some [].

(** The tokens of a whole buffer; one round per input byte is enough
    ([advanced_compress_total]). *)
Definition advanced_tokens (data : list Z) : option (list token) :=
  compress_loop (length data) data 0.

(** [advanced_compress]: the bytes left in [data_ptr]; the return value is
    their number. *)
Definition advanced_compress (data : list Z) : option (list Z) :=
  option_map (flat_map emit) (advanced_tokens data).

(** ** Decoder *)

(** The objects the decoder reads: the caller's buffer [data_ptr] and the
    palette [common_values]. *)
Inductive object : Type := Buffer | Palette.

(** What a piece of the decoder does: it completes with a value, or it
    accesses an object outside its bounds.  The source performs no bound
    check before any access and has no error result: [OutOfBounds] marks an
    access that C leaves undefined, not a reported error. *)
Inductive outcome (A : Type) : Type :=
| Returned (a : A)
| OutOfBounds (o : object).
Arguments Returned {A} a.
Arguments OutOfBounds {A} o.

Definition bind {A B : Type} (m : outcome A) (k : A -> outcome B) : outcome B :=
  match m with
  | Returned a => k a
  | OutOfBounds o => OutOfBounds o
  end.

Notation "x <- m ;; k" := (bind m (fun x => k))
  (at level 61, m at next level, right associativity).

(** [data_ptr[in_pos]] *)
Definition read_byte (data : list Z) (in_pos : nat) : outcome Z :=
  match nth_error data in_pos with
  | Some b => Returned b
  | None => OutOfBounds Buffer
  end.

(** The source of [memcpy(dst, &data_ptr[in_pos], len)]; nothing is accessed
    when [len] is 0. *)
Definition read_block (data : list Z) (in_pos len : nat) : outcome (list Z) :=
  if (len =? 0)%nat then Returned []
  else if (in_pos + len <=? length data)%nat then Returned (slice data in_pos len)
  else OutOfBounds Buffer.

(** [common_values[val_idx]] *)
Definition read_palette (val_idx : nat) : outcome Z :=
  match nth_error common_values val_idx with
  | Some v => Returned v
  | None => OutOfBounds Palette
  end.

(** The [repeat_count] copies of the pattern unit. *)
Fixpoint pattern_copies (repeat_count : nat) (data : list Z) (in_pos pattern_len : nat)
    : outcome (list Z) :=
  match repeat_count with
  | O => Returned []
  | S r =>
      unit <- read_block data in_pos pattern_len ;;
      rest <- pattern_copies r data in_pos pattern_len ;;
      Returned (unit ++ rest)
  end.

(** [output[out_pos++] = (start + i * delta) & 0x7F]: [i] is a [size_t], so
    the [int] [delta] and the sum are converted to [size_t]. *)
Definition delta_value (start delta : Z) (i : nat) : Z :=
  Z.land (size_wrap (start + size_wrap (Z.of_nat i * size_wrap delta))) 0x7F.

Definition delta_expand (start delta : Z) (len : nat) : list Z :=
  map (delta_value start delta) (seq 0 len).

(** The [pairs] packed bytes of a nibble token: the new cursor and the
    values written. *)
Fixpoint nibble_pairs (pairs : nat) (data : list Z) (in_pos : nat)
    : outcome (nat * list Z) :=
  match pairs with
  | O => Returned (in_pos, [])
  | S p =>
      packed <- read_byte data in_pos ;;
      r <- nibble_pairs p data (S in_pos) ;;
      Returned (fst r, Z.shiftr packed 4 :: Z.land packed 0x0F :: snd r)
  end.

(** One round of the main loop of [advanced_decompress] at cursor [in_pos]:
    the new cursor and the bytes appended to [output]. *)
Definition decode_step (data : list Z) (in_pos : nat) : outcome (nat * list Z) :=
  control <- read_byte data in_pos ;;
  let in_pos := S in_pos in
  if control =? EXT_ZERO_RUN then
    count <- read_byte data in_pos ;;
    Returned (S in_pos, repeat 0 (Z.to_nat count))
  else if control =? EXT_PATTERN then
    info <- read_byte data in_pos ;;
    let in_pos := S in_pos in
    let pattern_len := Z.to_nat (Z.shiftr info 4) in
    let repeat_count := Z.to_nat (Z.land info 0x0F) in
    copies <- pattern_copies repeat_count data in_pos pattern_len ;;
    Returned ((in_pos + pattern_len)%nat, copies)
  else if control =? EXT_COMMON_VAL then
    info <- read_byte data in_pos ;;
    let count := Z.to_nat (Z.shiftr info 4) in
    let val_idx := Z.to_nat (Z.land info 0x0F) in
    value <- read_palette val_idx ;;
    Returned (S in_pos, repeat value count)
  else
    let mode := Z.land control MODE_MASK in
    let len := Z.to_nat (Z.land control LENGTH_MASK) in
    if mode =? MODE_RLE then
      value <- read_byte data in_pos ;;
      Returned (S in_pos, repeat value len)
    else if mode =? MODE_DELTA then
      start <- read_byte data in_pos ;;
      d <- read_byte data (S in_pos) ;;
      let delta := d - 16 in
      Returned (S (S in_pos), delta_expand start delta len)
    else if mode =? MODE_NIBBLE then
      let pairs := (len / 2)%nat in
      r <- nibble_pairs pairs data in_pos ;;
      if (len mod 2 =? 0)%nat then Returned r
      else
        last <- read_byte data (fst r) ;;
        Returned (S (fst r), snd r ++ [Z.shiftr last 4])
    else
      bytes <- read_block data in_pos len ;;
      Returned ((in_pos + len)%nat, bytes).

(** The main loop; the outer [None] only when [rounds] is too small. *)
Fixpoint decompress_loop (rounds : nat) (data : list Z) (compressed_size in_pos : nat)
    (out : list Z) : option (outcome (list Z)) :=
  if (in_pos <? compressed_size)%nat then
    match rounds with
    | O => None
    | S r =>
        match decode_step data in_pos with
        | Returned (in_pos', bytes) =>
            decompress_loop r data compressed_size in_pos' (out ++ bytes)
        | OutOfBounds o => Some (OutOfBounds o)
        end
    end
  else Some (Returned out).

(** [advanced_decompress] on the caller's buffer [data], of which the first
    [compressed_size] bytes are the stream: the bytes left in [data_ptr] (the
    return value is their number).  Every round consumes the control byte,
    so one round per stream byte is enough ([advanced_decompress_total]). *)
Definition advanced_decompress (data : list Z) (compressed_size : nat)
    : option (outcome (list Z)) :=
  decompress_loop compressed_size data compressed_size 0 [].

Definition worked_vector : list Z :=
  [0x03; 0x74; 0x04; 0x04; 0x04; 0x35; 0x35; 0x64;
   0x64; 0x64; 0x64; 0x00; 0x00; 0x00; 0x00; 0x00;
   0x56; 0x45; 0x56; 0x56; 0x56; 0x09; 0x09; 0x09].

(** ** What a token stands for *)

(** The input bytes a token replaces, as the decoder rebuilds them. *)
Definition expand (t : token) : list Z :=
  match t with
  | ZeroRun zero_count => repeat 0 zero_count
  | Delta start delta delta_length => delta_expand start delta delta_length
  | Nibble values => values
  | PatternTok p => concat (repeat (firstn (pat_length p) (pat_bytes p)) (pat_count p))
  | CommonRun common_idx run_length => repeat (nth common_idx common_values 0) run_length
  | Run current run_length => repeat current run_length
  | Literal bytes => bytes
  end.

(** The least coverage of each kind of token. *)
Definition min_coverage (t : token) : nat :=
  match t with
  | ZeroRun _ => 3
  | Delta _ _ _ => 3
  | Nibble _ => 4
  | PatternTok _ => 4
  | CommonRun _ _ => 3
  | Run _ _ => 3
  | Literal _ => 1
  end.

(** Tokens of the strategies that do no arithmetic on the data. *)
Definition non_arithmetic (t : token) : bool :=
  match t with
  | Delta _ _ _ | Nibble _ => false
  | _ => true
  end.

(** The runs of the main loop of [advanced_compress] as a relation: the
    tokens emitted from cursor [in_pos] on. *)
Inductive tokens_from (data : list Z) : nat -> list token -> Prop :=
| tokens_done in_pos :
    (length data <= in_pos)%nat -> tokens_from data in_pos []
| tokens_round in_pos rest :
    (in_pos < length data)%nat ->
    tokens_from data (in_pos + coverage (compress_step data in_pos)) rest ->
    tokens_from data in_pos (compress_step data in_pos :: rest).

(** ** The baseline run-length codec

    [simple_rle_compress] and [simple_rle_decompress], with the conventions
    of the advanced codec. *)

Definition RLE_FLAG : Z := 0x80.
Definition MIN_RUN_LENGTH : nat := 2.
Definition MAX_RUN_LENGTH : nat := 127.

(** The run scan of [simple_rle_compress] at [read_pos]; the look-ahead scan
    of its literal loop has the same condition. *)
Definition rle_run_scan (data : list Z) (read_pos : nat) : nat :=
  count_while MAX_RUN_LENGTH
    (fun run_length =>
       (read_pos + run_length <? length data)%nat
       && (byte_at data (read_pos + run_length) =? byte_at data read_pos)
       && (run_length <? MAX_RUN_LENGTH)%nat)
    1%nat.

Definition rle_ahead_scan (data : list Z) (read_pos : nat) : nat :=
  if (read_pos + 1 <? length data)%nat then
    count_while MAX_RUN_LENGTH
      (fun ahead_run =>
         (read_pos + ahead_run <? length data)%nat
         && (byte_at data (read_pos + ahead_run) =? byte_at data read_pos)
         && (ahead_run <? MAX_RUN_LENGTH)%nat)
      1%nat
  else 1%nat.

(** The literal loop of [simple_rle_compress]: the final [read_pos] and
    [literal_count]. *)
Fixpoint rle_literal_scan (rounds : nat) (data : list Z) (read_pos literal_count : nat)
    : nat * nat :=
  match rounds with
  | O => (read_pos, literal_count)
  | S r =>
      if (read_pos <? length data)%nat && (literal_count <? MAX_RUN_LENGTH)%nat then
        let ahead_run := rle_ahead_scan data read_pos in
        if (MIN_RUN_LENGTH <=? ahead_run)%nat then (read_pos, literal_count)
        else rle_literal_scan r data (read_pos + ahead_run) (literal_count + ahead_run)
      else (read_pos, literal_count)
  end.

(** One round of the main loop of [simple_rle_compress] at [read_pos]: the
    bytes appended to [temp_buffer] and the new [read_pos]. *)
Definition rle_compress_step (data : list Z) (read_pos : nat) : list Z * nat :=
  let current_byte := byte_at data read_pos in
  let run_length := rle_run_scan data read_pos in
  if (MIN_RUN_LENGTH <=? run_length)%nat then
    ([Z.lor RLE_FLAG (u8 (Z.of_nat run_length)); current_byte],
     (read_pos + run_length)%nat)
  else
    let literal_start := read_pos in
    let '(read_pos', literal_count) := rle_literal_scan MAX_RUN_LENGTH data read_pos 0 in
    (u8 (Z.of_nat literal_count) :: slice data literal_start literal_count, read_pos').

(** The main loop: [None] only when [rounds] is too small. *)
Fixpoint rle_compress_loop (rounds : nat) (data : list Z) (read_pos : nat)
    : option (list Z) :=
  if (read_pos <? length data)%nat then
    match rounds with
    | O => None
    | S r =>
        let '(bytes, read_pos') := rle_compress_step data read_pos in
        option_map (app bytes) (rle_compress_loop r data read_pos')
    end
  else Some [].

(** [simple_rle_compress]: the bytes left in [data_ptr]. *)
Definition simple_rle_compress (data : list Z) : option (list Z) :=
  rle_compress_loop (length data) data 0.

(** The literal loop of [simple_rle_decompress]:
    [for (i = 0; i < literal_count && read_pos < compressed_size; i++)]. *)
Fixpoint rle_copy (literal_count : nat) (data : list Z) (compressed_size read_pos : nat)
    : outcome (nat * list Z) :=
  match literal_count with
  | O => Returned (read_pos, [])
  | S n =>
      if (read_pos <? compressed_size)%nat then
        b <- read_byte data read_pos ;;
        r <- rle_copy n data compressed_size (S read_pos) ;;
        Returned (fst r, b :: snd r)
      else Returned (read_pos, [])
  end.

(** One round of the main loop of [simple_rle_decompress]. *)
Definition rle_decode_step (data : list Z) (compressed_size read_pos : nat)
    : outcome (nat * list Z) :=
  control_byte <- read_byte data read_pos ;;
  let read_pos := S read_pos in
  if negb (Z.land control_byte RLE_FLAG =? 0) then
    let run_length := Z.to_nat (Z.land control_byte 0x7F) in
    if (read_pos <? compressed_size)%nat then
      value <- read_byte data read_pos ;;
      Returned (S read_pos, repeat value run_length)
    else Returned (read_pos, [])
  else
    let literal_count := Z.to_nat control_byte in
    rle_copy literal_count data compressed_size read_pos.

Fixpoint rle_decompress_loop (rounds : nat) (data : list Z) (compressed_size read_pos : nat)
    (out : list Z) : option (outcome (list Z)) :=
  if (read_pos <? compressed_size)%nat then
    match rounds with
    | O => None
    | S r =>
        match rle_decode_step data compressed_size read_pos with
        | Returned (read_pos', bytes) =>
            rle_decompress_loop r data compressed_size read_pos' (out ++ bytes)
        | OutOfBounds o => Some (OutOfBounds o)
        end
    end
  else Some (Returned out).

(** [simple_rle_decompress] on the caller's buffer [data], of which the
    first [compressed_size] bytes are the stream. *)
Definition simple_rle_decompress (data : list Z) (compressed_size : nat)
    : option (outcome (list Z)) :=
  rle_decompress_loop compressed_size data compressed_size 0 [].



(** ** Definitions used by the proofs *)

(** Boolean tests of the source as propositions. *)
Ltac to_prop :=
  repeat match goal with
  | H : andb _ _ = true |- _ => apply andb_true_iff in H; destruct H
  | H : negb _ = true |- _ => apply negb_true_iff in H
  | H : negb _ = false |- _ => apply negb_false_iff in H
  | H : Nat.ltb _ _ = true |- _ => apply Nat.ltb_lt in H
  | H : Nat.ltb _ _ = false |- _ => apply Nat.ltb_ge in H
  | H : Nat.leb _ _ = true |- _ => apply Nat.leb_le in H
  | H : Nat.leb _ _ = false |- _ => apply Nat.leb_gt in H
  | H : Nat.eqb _ _ = true |- _ => apply Nat.eqb_eq in H
  | H : Nat.eqb _ _ = false |- _ => apply Nat.eqb_neq in H
  | H : Z.eqb _ _ = true |- _ => apply Z.eqb_eq in H
  | H : Z.eqb _ _ = false |- _ => apply Z.eqb_neq in H
  | H : Z.leb _ _ = true |- _ => apply Z.leb_le in H
  | H : Z.leb _ _ = false |- _ => apply Z.leb_gt in H
  | H : Z.ltb _ _ = true |- _ => apply Z.ltb_lt in H
  | H : Z.ltb _ _ = false |- _ => apply Z.ltb_ge in H
  end.

(** What [best] can hold: still the initial value, or an accepted candidate
    lying inside the buffer. *)
Definition pattern_inside (data : list Z) (start : nat) (best : Pattern) : Prop :=
  (pat_length best = 0%nat /\ pat_count best = 0%nat)
  \/ ((2 <= pat_length best <= 16)%nat /\ (2 <= pat_count best)%nat
      /\ (start + pat_length best * pat_count best <= length data)%nat).

(** The result of a round moved [n] bytes forward. *)
Definition shift_cursor (n : nat) (r : outcome (nat * list Z)) : outcome (nat * list Z) :=
  match r with
  | Returned (in_pos, bytes) => Returned ((n + in_pos)%nat, bytes)
  | OutOfBounds o => OutOfBounds o
  end.

(** The decoder's view of the control byte [mode | n]: it is no escape, its
    mode bits are [mode] and its length bits are [n]. *)
Definition control_check (mode : Z) (n : nat) : bool :=
  let control := Z.lor mode (u8 (Z.of_nat n)) in
  negb (control =? EXT_ZERO_RUN) && negb (control =? EXT_PATTERN)
  && negb (control =? EXT_COMMON_VAL)
  && (Z.land control MODE_MASK =? mode)
  && (Z.to_nat (Z.land control LENGTH_MASK) =? n)%nat.

(** The lengths at which [MODE_DELTA | n] is an escape code. *)
Definition escape_length (n : nat) : bool :=
  (n =? 32)%nat || (n =? 48)%nat || (n =? 50)%nat.

(** The decoder's view of the info byte of a common-value run. *)
Definition common_info_check (run_length common_idx : nat) : bool :=
  let info := u8 (Z.lor (Z.shiftl (Z.of_nat run_length) 4) (Z.of_nat common_idx)) in
  (Z.to_nat (Z.shiftr info 4) =? run_length)%nat
  && (Z.to_nat (Z.land info 0x0F) =? common_idx)%nat.

(** The decoder's view of a packed pair of nibbles. *)
Definition nibble_check (hi lo : nat) : bool :=
  let packed := u8 (Z.lor (Z.shiftl (Z.of_nat hi) 4) (Z.of_nat lo)) in
  (Z.shiftr packed 4 =? Z.of_nat hi) && (Z.land packed 0x0F =? Z.of_nat lo)
  && (Z.shiftr (u8 (Z.shiftl (Z.of_nat hi) 4)) 4 =? Z.of_nat hi).

(** The nibble branch of [decode_step], for a token of length [n] whose
    packed bytes start at [k]. *)
Definition nibble_branch (n : nat) (data : list Z) (k : nat) : outcome (nat * list Z) :=
  r <- nibble_pairs (n / 2) data k ;;
  if (n mod 2 =? 0)%nat then Returned r
  else
    last <- read_byte data (fst r) ;;
    Returned (S (fst r), snd r ++ [Z.shiftr last 4]).

(** The tokens the decoder expands to [expand]. *)
Definition decodable (t : token) : Prop :=
  match t with
  | ZeroRun zero_count => (zero_count <= 255)%nat
  | Delta _ delta delta_length =>
      (delta_length <= 63)%nat /\ escape_length delta_length = false
      /\ -16 <= delta < 240
  | Nibble values =>
      (length values <= 63)%nat /\ Forall (fun v => 0 <= v < 16) values
  | PatternTok _ => False
  | CommonRun common_idx run_length => (common_idx < 8)%nat /\ (run_length <= 15)%nat
  | Run _ run_length => (run_length <= 63)%nat
  | Literal bytes => (length bytes <= 63)%nat
  end.

(** A Delta token the decoder takes for a Delta token and rebuilds exactly:
    its length is no escape length and its first two values are below 128. *)
Definition delta_clean (t : token) : Prop :=
  match t with
  | Delta start delta delta_length =>
      start < 128 /\ start + delta < 128 /\ escape_length delta_length = false
  | _ => True
  end.

(** The input of the pattern property: the unit [0x12 0x34] ten times. *)
Definition pattern_input : list Z := concat (repeat [0x12; 0x34] 10).

(** Bytes of the upper half of the alphabet in a common-value run, a zero
    run, literals and a long run. *)
Definition full_alphabet_sample : list Z :=
  [0xFF; 0xFF; 0xFF; 0x00; 0x00; 0x00; 0x00; 0xC8; 0x11]
  ++ repeat 0x90 20 ++ [0x05; 0x05].

(** The Delta tokens whose control byte is no escape code. *)
Definition no_escape (t : token) : Prop :=
  match t with
  | Delta _ _ delta_length => escape_length delta_length = false
  | _ => True
  end.

(** The baseline decoder's view of a run control byte and of a literal
    control byte. *)
Definition rle_run_control_check (n : nat) : bool :=
  let control := Z.lor RLE_FLAG (u8 (Z.of_nat n)) in
  negb (Z.land control RLE_FLAG =? 0)
  && (Z.to_nat (Z.land control 0x7F) =? n)%nat.

Definition rle_literal_control_check (n : nat) : bool :=
  let control := u8 (Z.of_nat n) in
  (Z.land control RLE_FLAG =? 0) && (Z.to_nat control =? n)%nat.

(** The tokens whose counts fit the fields of the format: 8 bits for a
    zero run, 6 bits for the length of a delta, nibble, run or literal token,
    4 bits for the length of a common-value run, 5 bits for a delta plus 16. *)
Definition token_in_range (t : token) : Prop :=
  match t with
  | ZeroRun zero_count => (3 <= zero_count <= 255)%nat
  | Delta _ delta delta_length => (3 <= delta_length <= 63)%nat /\ -15 <= delta <= 15
  | Nibble values => (4 <= length values <= 62)%nat
  | PatternTok _ => False
  | CommonRun common_idx run_length =>
      (common_idx < 8)%nat /\ (3 <= run_length <= 15)%nat
  | Run _ run_length => (3 <= run_length <= 63)%nat
  | Literal bytes => (1 <= length bytes <= 63)%nat
  end.

Definition is_literal (t : token) : bool :=
  match t with
  | Literal _ => true
  | _ => false
  end.

(** The tokens for the last [r] bytes of a buffer of zeros, [r < 255]. *)
Definition zero_tail_tokens (r : nat) : list token :=
  if (r =? 0)%nat then []
  else if (r <? 3)%nat then [Literal (repeat 0 r)]
  else [ZeroRun r].

(** The decoder's view of the info byte of a pattern escape. *)
Definition pattern_info_check (pattern_len repeat_count : nat) : bool :=
  let info := u8 (Z.lor (Z.shiftl (Z.of_nat pattern_len) 4)
                        (Z.land (Z.of_nat repeat_count) 0x0F)) in
  (Z.to_nat (Z.shiftr info 4) =? pattern_len)%nat
  && (Z.to_nat (Z.land info 0x0F) =? repeat_count)%nat.

(** ** Properties *)

(** *** [count_while] *)

Lemma count_while_inv (P : nat -> Prop) (cond : nat -> bool) :
  (forall k, P k -> cond k = true -> P (S k)) ->
  forall rounds n, P n -> P (count_while rounds cond n).
Proof.
  intros Hstep rounds; induction rounds as [|r IH]; intros n Hn; simpl; auto.
  destruct (cond n) eqn:E; auto.
Qed.

Lemma count_while_ge cond rounds n : (n <= count_while rounds cond n)%nat.
Proof.
  revert n; induction rounds as [|r IH]; intros n; simpl; [lia|].
  destruct (cond n); [specialize (IH (S n))|]; lia.
Qed.

Lemma count_while_true cond rounds n k :
  (n <= k < count_while rounds cond n)%nat -> cond k = true.
Proof.
  revert n; induction rounds as [|r IH]; intros n Hk; simpl in Hk; [lia|].
  destruct (cond n) eqn:E; [|lia].
  destruct (Nat.eq_dec k n) as [->|Hne]; [assumption|].
  apply (IH (S n)); lia.
Qed.

Lemma count_while_false cond rounds n :
  (count_while rounds cond n < n + rounds)%nat ->
  cond (count_while rounds cond n) = false.
Proof.
  revert n; induction rounds as [|r IH]; intros n Hlt; simpl in *; [lia|].
  destruct (cond n) eqn:E; [|assumption].
  apply IH; lia.
Qed.

(** A loop whose condition fails at [m] stops at or before [m]. *)
Lemma count_while_cap cond rounds n m :
  (n <= m)%nat -> cond m = false -> (count_while rounds cond n <= m)%nat.
Proof.
  intros Hnm Hm.
  destruct (le_lt_dec (count_while rounds cond n) m) as [|Hgt]; [assumption|].
  rewrite (count_while_true cond rounds n m) in Hm; [discriminate|lia].
Qed.

(** A loop that is still running at [k] goes past [k]. *)
Lemma count_while_past cond rounds n k :
  (n <= k < n + rounds)%nat ->
  (forall j, (n <= j <= k)%nat -> cond j = true) ->
  (k < count_while rounds cond n)%nat.
Proof.
  intros Hk Hall.
  destruct (le_lt_dec (count_while rounds cond n) k) as [Hle|]; [|assumption].
  pose proof (count_while_ge cond rounds n) as Hge.
  assert (Hf : cond (count_while rounds cond n) = false)
    by (apply count_while_false; lia).
  rewrite Hall in Hf; [discriminate|lia].
Qed.

(** *** Slices *)

Lemma slice_length data start len :
  (start + len <= length data)%nat -> length (slice data start len) = len.
Proof.
  intros H; unfold slice.
  rewrite length_firstn, length_skipn; lia.
Qed.

Lemma slice_nth data start len k :
  (k < len)%nat -> nth k (slice data start len) 0 = byte_at data (start + k).
Proof.
  intros H; unfold slice, byte_at.
  rewrite nth_firstn.
  destruct (k <? len)%nat eqn:E; [|apply Nat.ltb_ge in E; lia].
  now rewrite nth_skipn.
Qed.

Lemma slice_const data start len v :
  (start + len <= length data)%nat ->
  (forall k, (k < len)%nat -> byte_at data (start + k) = v) ->
  slice data start len = repeat v len.
Proof.
  intros Hlen Hall.
  apply (nth_ext _ _ 0 0).
  - rewrite slice_length, repeat_length; auto.
  - intros k Hk. rewrite slice_length in Hk by assumption.
    rewrite slice_nth, nth_repeat_lt; auto.
Qed.

Lemma skipn_slice data start len :
  skipn start data = slice data start len ++ skipn (start + len) data.
Proof.
  unfold slice.
  rewrite Nat.add_comm, <- skipn_skipn.
  symmetry; apply firstn_skipn.
Qed.

(** *** The scans of the encoder *)

Lemma zero_run_scan_bounds data in_pos :
  (in_pos < length data)%nat ->
  (1 <= zero_run_scan data in_pos <= 255)%nat
  /\ (in_pos + zero_run_scan data in_pos <= length data)%nat.
Proof.
  intros Hpos; unfold zero_run_scan.
  apply (count_while_inv
           (fun k => (1 <= k <= 255)%nat /\ (in_pos + k <= length data)%nat)).
  - intros k Hk Hc; to_prop; lia.
  - lia.
Qed.

Lemma zero_run_scan_zeros data in_pos k :
  (1 <= k < zero_run_scan data in_pos)%nat -> byte_at data (in_pos + k) = 0.
Proof.
  intros Hk; unfold zero_run_scan in Hk.
  apply count_while_true in Hk; to_prop; assumption.
Qed.

Lemma run_scan_bounds data in_pos :
  (in_pos < length data)%nat ->
  (1 <= run_scan data in_pos <= 63)%nat
  /\ (in_pos + run_scan data in_pos <= length data)%nat.
Proof.
  intros Hpos; unfold run_scan.
  apply (count_while_inv
           (fun k => (1 <= k <= 63)%nat /\ (in_pos + k <= length data)%nat)).
  - intros k Hk Hc; to_prop; lia.
  - lia.
Qed.

Lemma run_scan_same data in_pos k :
  (1 <= k < run_scan data in_pos)%nat ->
  byte_at data (in_pos + k) = byte_at data in_pos.
Proof.
  intros Hk; unfold run_scan in Hk.
  apply count_while_true in Hk; to_prop; assumption.
Qed.

(** The run scan goes to 3 as soon as the two next bytes repeat the first. *)
Lemma run_scan_three data in_pos :
  (in_pos + 2 < length data)%nat ->
  byte_at data (in_pos + 1) = byte_at data in_pos ->
  byte_at data (in_pos + 2) = byte_at data in_pos ->
  (3 <= run_scan data in_pos)%nat.
Proof.
  intros Hlen H1 H2; unfold run_scan.
  apply (count_while_past _ 63 1 2); [lia|].
  intros j Hj.
  assert (Hcase : j = 1%nat \/ j = 2%nat) by lia.
  destruct Hcase as [-> | ->].
  - rewrite H1, Z.eqb_refl.
    replace (in_pos + 1 <? length data)%nat with true
      by (symmetry; apply Nat.ltb_lt; lia).
    reflexivity.
  - rewrite H2, Z.eqb_refl.
    replace (in_pos + 2 <? length data)%nat with true
      by (symmetry; apply Nat.ltb_lt; lia).
    reflexivity.
Qed.

(** The uncapped look-ahead reaches 3 only when the capped run scan does. *)
Lemma ahead_scan_run_scan data in_pos :
  (3 <= ahead_scan data in_pos)%nat -> (3 <= run_scan data in_pos)%nat.
Proof.
  unfold ahead_scan.
  destruct (in_pos + 1 <? length data)%nat; [|lia].
  intros H.
  match type of H with
  | (3 <= count_while ?r ?c ?n)%nat =>
      assert (H1 : c 1%nat = true) by (apply (count_while_true c r n); lia);
      assert (H2 : c 2%nat = true) by (apply (count_while_true c r n); lia)
  end.
  cbv beta in H1, H2; to_prop.
  apply run_scan_three; assumption.
Qed.

Lemma delta_scan_bounds data start delta :
  (start + 2 <= length data)%nat ->
  (2 <= delta_scan data start delta <= 63)%nat
  /\ (start + delta_scan data start delta <= length data)%nat.
Proof.
  intros Hlen; unfold delta_scan.
  apply (count_while_inv
           (fun k => (2 <= k <= 63)%nat /\ (start + k <= length data)%nat)).
  - intros k Hk Hc; to_prop; lia.
  - lia.
Qed.

Lemma delta_scan_step data start delta k :
  (2 <= k < delta_scan data start delta)%nat ->
  byte_at data (start + k) = Z.land (byte_at data (start + k - 1) + delta) 0x7F.
Proof.
  unfold delta_scan; intros Hk.
  apply count_while_true in Hk; to_prop; assumption.
Qed.

(** [is_delta_sequence] accepts: the facts the caller relies on. *)
Lemma is_delta_sequence_true data start delta len :
  is_delta_sequence data start = (true, delta, len) ->
  (start + 2 <= length data)%nat
  /\ delta = byte_at data (start + 1) - byte_at data start
  /\ -15 <= delta <= 15
  /\ (3 <= len <= 63)%nat
  /\ (start + len <= length data)%nat
  /\ (forall k, (2 <= k < len)%nat ->
        byte_at data (start + k)
        = Z.land (byte_at data (start + k - 1) + delta) 0x7F).
Proof.
  unfold is_delta_sequence.
  destruct (length data <? start + 2)%nat eqn:Hshort; [discriminate|].
  intros H.
  pose proof (f_equal (fun r => fst (fst r)) H) as Hok.
  pose proof (f_equal (fun r => snd (fst r)) H) as Hdelta.
  pose proof (f_equal snd H) as Hlen.
  cbn [fst snd] in Hok, Hdelta, Hlen; clear H; to_prop.
  destruct (delta_scan_bounds data start delta) as [Hb1 Hb2]; [lia|].
  subst delta len.
  split; [lia|]. split; [reflexivity|]. split; [lia|].
  split; [lia|]. split; [lia|].
  intros k Hk; now apply delta_scan_step.
Qed.

Lemma nibble_scan_bounds data start :
  (start <= length data)%nat ->
  (nibble_scan data start <= 62)%nat
  /\ (start + nibble_scan data start <= length data)%nat.
Proof.
  intros Hpos; unfold nibble_scan.
  apply (count_while_inv
           (fun k => (k <= 62)%nat /\ (start + k <= length data)%nat)).
  - intros k Hk Hc; to_prop; lia.
  - lia.
Qed.

Lemma nibble_scan_small data start k :
  (k < nibble_scan data start)%nat -> byte_at data (start + k) < 16.
Proof.
  unfold nibble_scan; intros Hk.
  assert (Hk' := count_while_true _ _ 0%nat k (conj (Nat.le_0_l k) Hk)).
  cbv beta in Hk'; to_prop; assumption.
Qed.

Lemma literal_scan_S r data in_pos literal_count :
  literal_scan (S r) data in_pos literal_count =
  if (in_pos <? length data)%nat && (literal_count <? 63)%nat then
    if (3 <=? ahead_scan data in_pos)%nat then literal_count
    else if fst (fst (is_delta_sequence data in_pos)) then literal_count
    else literal_scan r data (S in_pos) (S literal_count)
  else literal_count.
Proof. reflexivity. Qed.

Lemma literal_scan_bounds rounds data in_pos literal_count :
  (in_pos <= length data)%nat -> (literal_count <= 63)%nat ->
  (literal_count <= literal_scan rounds data in_pos literal_count <= 63)%nat
  /\ (in_pos + literal_scan rounds data in_pos literal_count
      <= length data + literal_count)%nat.
Proof.
  revert in_pos literal_count; induction rounds as [|r IH];
    intros in_pos literal_count Hpos Hcount; [simpl; lia|].
  rewrite literal_scan_S.
  destruct ((in_pos <? length data)%nat && (literal_count <? 63)%nat) eqn:Hc; [|lia].
  destruct (3 <=? ahead_scan data in_pos)%nat; [lia|].
  destruct (fst (fst (is_delta_sequence data in_pos))); [lia|].
  to_prop.
  specialize (IH (S in_pos) (S literal_count) ltac:(lia) ltac:(lia)); lia.
Qed.

(** The first round of the literal loop takes a byte when neither stop
    condition holds at the cursor. *)
Lemma literal_scan_first data in_pos :
  (in_pos < length data)%nat ->
  (run_scan data in_pos < 3)%nat ->
  fst (fst (is_delta_sequence data in_pos)) = false ->
  (1 <= literal_scan 63 data in_pos 0)%nat.
Proof.
  intros Hpos Hrun Hdelta.
  rewrite literal_scan_S.
  replace (in_pos <? length data)%nat with true by (symmetry; apply Nat.ltb_lt; lia).
  rewrite Hdelta.
  destruct (3 <=? ahead_scan data in_pos)%nat eqn:Hahead.
  - to_prop. apply ahead_scan_run_scan in Hahead. lia.
  - simpl. apply (literal_scan_bounds 62 data (S in_pos) 1); lia.
Qed.

(** *** [find_pattern] *)

Lemma count_matches_bounds data start pattern_len :
  (start + pattern_len * 2 <= length data)%nat ->
  (1 <= count_matches data start pattern_len)%nat
  /\ (start + count_matches data start pattern_len * pattern_len <= length data)%nat.
Proof.
  intros Hguard; unfold count_matches.
  apply (count_while_inv
           (fun k => (1 <= k)%nat /\ (start + k * pattern_len <= length data)%nat)).
  - intros k Hk Hc; to_prop; lia.
  - lia.
Qed.

Lemma consider_pattern_inside data start pattern_len best :
  (2 <= pattern_len <= 16)%nat ->
  (start + pattern_len * 2 <= length data)%nat ->
  pattern_inside data start best ->
  pattern_inside data start (consider_pattern data start pattern_len best).
Proof.
  intros Hlen Hguard Hbest; unfold consider_pattern.
  destruct (count_matches_bounds data start pattern_len Hguard) as [_ Hin].
  destruct (2 <=? count_matches data start pattern_len)%nat eqn:Hm; [|assumption].
  match goal with |- context [if ?c then _ else _] => destruct c end; [|assumption].
  right; cbn [pat_length pat_count]; to_prop; lia.
Qed.

Lemma find_pattern_loop_inside rounds data start pattern_len best :
  (2 <= pattern_len)%nat ->
  pattern_inside data start best ->
  pattern_inside data start (find_pattern_loop rounds data start pattern_len best).
Proof.
  revert pattern_len best; induction rounds as [|r IH];
    intros pattern_len best Hlen Hbest; cbn [find_pattern_loop]; [assumption|].
  destruct ((pattern_len <=? 16)%nat && (start + pattern_len * 2 <=? length data)%nat)
    eqn:Hguard; [|assumption].
  to_prop.
  apply IH; [lia|].
  apply consider_pattern_inside; auto; lia.
Qed.

Lemma find_pattern_inside data start :
  pattern_inside data start (find_pattern data start).
Proof.
  apply find_pattern_loop_inside; [lia|].
  left; split; reflexivity.
Qed.

(** The score of the initial [best] is [0 - 2] in [size_t]: the largest value
    but one.  No candidate of a buffer whose length is a [size_t] beats it. *)
Lemma consider_pattern_zero data start pattern_len :
  fits_size_t data ->
  (2 <= pattern_len)%nat ->
  (start + pattern_len * 2 <= length data)%nat ->
  consider_pattern data start pattern_len Pattern_zero = Pattern_zero.
Proof.
  intros Hfit Hlen Hguard; unfold consider_pattern.
  destruct (count_matches_bounds data start pattern_len Hguard) as [_ Hin].
  destruct (2 <=? count_matches data start pattern_len)%nat eqn:Hm; [|reflexivity].
  to_prop.
  set (m := count_matches data start pattern_len) in *.
  cbn [pat_count pat_length Pattern_zero].
  match goal with |- (if ?c then _ else _) = _ => destruct c eqn:Hcmp end;
    [|reflexivity].
  exfalso; to_prop.
  unfold fits_size_t in Hfit.
  unfold size_wrap, SIZE_MODULUS in *.
  change (Z.of_nat 0 * Z.of_nat 0 - (2 + Z.of_nat 0)) with (-2) in Hcmp.
  change (-2 mod 2 ^ 64) with (2 ^ 64 - 2) in Hcmp.
  assert (Hprod : Z.of_nat pattern_len * 2 <= Z.of_nat m * Z.of_nat pattern_len) by nia.
  assert (Hup : Z.of_nat m * Z.of_nat pattern_len <= Z.of_nat (length data)) by nia.
  rewrite Z.mod_small in Hcmp by lia.
  lia.
Qed.

Lemma find_pattern_loop_zero rounds data start pattern_len :
  fits_size_t data ->
  (2 <= pattern_len)%nat ->
  find_pattern_loop rounds data start pattern_len Pattern_zero = Pattern_zero.
Proof.
  intros Hfit; revert pattern_len; induction rounds as [|r IH];
    intros pattern_len Hlen; cbn [find_pattern_loop]; [reflexivity|].
  destruct ((pattern_len <=? 16)%nat && (start + pattern_len * 2 <=? length data)%nat)
    eqn:Hguard; [|reflexivity].
  to_prop.
  rewrite consider_pattern_zero by assumption.
  apply IH; lia.
Qed.

(** [find_pattern] never accepts a candidate. *)
Lemma find_pattern_never data start :
  fits_size_t data -> find_pattern data start = Pattern_zero.
Proof.
  intros Hfit; apply find_pattern_loop_zero; [assumption|lia].
Qed.

(** *** One round of the encoder *)

Lemma pack_nibbles_length values :
  (length (pack_nibbles values) <= length values)%nat.
Proof.
  enough (H : (length (pack_nibbles values) <= length values)%nat
              /\ forall v, (length (pack_nibbles (v :: values))
                            <= length (v :: values))%nat) by apply H.
  induction values as [|a l [IH1 IH2]].
  - split; [|intros v]; simpl; lia.
  - split; [apply IH2|].
    intros v. cbn [pack_nibbles length] in *. lia.
Qed.

Lemma common_index_Some current common_idx :
  common_index current = Some common_idx ->
  (common_idx < 8)%nat /\ nth common_idx common_values 0 = current.
Proof.
  unfold common_index, common_values; cbn [common_index_from].
  repeat match goal with
  | |- context [if ?v =? current then _ else _] =>
      destruct (Z.eqb_spec v current) as [<- | _]
  end; intros H; inversion H; subst; split; (lia || reflexivity).
Qed.

(** Every branch of the main loop covers at least the least coverage of its
    token, stays inside the input, and writes at most twice what it covers. *)
Lemma compress_step_bounds data in_pos :
  (in_pos < length data)%nat ->
  (min_coverage (compress_step data in_pos) <= coverage (compress_step data in_pos))%nat
  /\ (in_pos + coverage (compress_step data in_pos) <= length data)%nat
  /\ (length (emit (compress_step data in_pos))
      <= 2 * coverage (compress_step data in_pos))%nat.
Proof.
  intros Hpos; unfold compress_step.
  destruct ((byte_at data in_pos =? 0) && (3 <=? zero_run_scan data in_pos)%nat)
    eqn:Hzero.
  { to_prop. destruct (zero_run_scan_bounds data in_pos Hpos) as [Hz1 Hz2].
    cbn [min_coverage coverage emit length]; lia. }
  destruct (is_delta_sequence data in_pos) as [[is_delta delta] delta_length] eqn:Hdelta.
  destruct is_delta.
  { apply is_delta_sequence_true in Hdelta.
    destruct Hdelta as (_ & _ & _ & Hlen & Hin & _).
    cbn [min_coverage coverage emit length]; lia. }
  destruct (can_nibble_pack data in_pos) as [is_nibble nibble_length] eqn:Hnibble.
  destruct is_nibble.
  { unfold can_nibble_pack in Hnibble.
    pose proof (f_equal fst Hnibble) as Hok.
    pose proof (f_equal snd Hnibble) as Hlen.
    cbn [fst snd] in Hok, Hlen; clear Hnibble; to_prop.
    destruct (nibble_scan_bounds data in_pos) as [Hn1 Hn2]; [lia|].
    rewrite Hlen in *.
    cbn [min_coverage coverage emit length].
    pose proof (pack_nibbles_length (slice data in_pos nibble_length)) as Hpack.
    rewrite slice_length in * by assumption. lia. }
  destruct ((2 <=? pat_count (find_pattern data in_pos))%nat
            && (2 <=? pat_length (find_pattern data in_pos))%nat) eqn:Hpat.
  { to_prop.
    destruct (find_pattern_inside data in_pos) as [[Hz _] | (Hl & Hc & Hin)]; [lia|].
    cbn [min_coverage coverage emit length].
    pose proof (firstn_le_length (pat_length (find_pattern data in_pos))
                  (pat_bytes (find_pattern data in_pos))) as Hunit.
    nia. }
  destruct (run_scan_bounds data in_pos Hpos) as [Hr1 Hr2].
  destruct (3 <=? run_scan data in_pos)%nat eqn:Hrun.
  { to_prop.
    destruct (common_index (byte_at data in_pos)) as [common_idx|];
      [destruct (run_scan data in_pos <=? 15)%nat|];
      cbn [min_coverage coverage emit length]; lia. }
  to_prop.
  assert (Hfirst : (1 <= literal_scan 63 data in_pos 0)%nat).
  { apply literal_scan_first; [assumption|lia|]. now rewrite Hdelta. }
  destruct (literal_scan_bounds 63 data in_pos 0) as [Hl1 Hl2]; [lia|lia|].
  cbn [min_coverage coverage emit length].
  rewrite slice_length by lia. lia.
Qed.

(** *** The main loop of the encoder *)

Lemma compress_loop_eq rounds data in_pos :
  compress_loop rounds data in_pos =
  if (in_pos <? length data)%nat then
    match rounds with
    | O => None
    | S r =>
        option_map (cons (compress_step data in_pos))
          (compress_loop r data (in_pos + coverage (compress_step data in_pos)))
    end
  else Some [].
Proof. destruct rounds; reflexivity. Qed.

Lemma compress_loop_tokens_from rounds data :
  forall in_pos toks,
    compress_loop rounds data in_pos = Some toks -> tokens_from data in_pos toks.
Proof.
  induction rounds as [|r IH]; intros in_pos toks; rewrite compress_loop_eq;
    destruct (in_pos <? length data)%nat eqn:Hpos; to_prop; intros H;
    try discriminate;
    try (injection H as <-; now constructor).
  destruct (compress_loop r data (in_pos + coverage (compress_step data in_pos)))
    as [rest|] eqn:Hrest; [|discriminate].
  injection H as <-.
  constructor; [assumption|]. now apply IH.
Qed.

(** One round per remaining input byte is enough. *)
Lemma compress_loop_total rounds data :
  forall in_pos,
    (length data - in_pos <= rounds)%nat ->
    exists toks, compress_loop rounds data in_pos = Some toks.
Proof.
  induction rounds as [|r IH]; intros in_pos Hrounds; rewrite compress_loop_eq;
    destruct (in_pos <? length data)%nat eqn:Hpos; to_prop;
    try (eexists; reflexivity); [lia|].
  destruct (compress_step_bounds data in_pos Hpos) as (Hmin & _ & _).
  assert (Hone : (1 <= min_coverage (compress_step data in_pos))%nat)
    by (destruct (compress_step data in_pos); cbn; lia).
  destruct (IH (in_pos + coverage (compress_step data in_pos))%nat) as [rest ->]; [lia|].
  eexists; reflexivity.
Qed.

Lemma min_coverage_pos t : (1 <= min_coverage t)%nat.
Proof. destruct t; cbn; lia. Qed.

Lemma tokens_from_bounds data in_pos toks :
  tokens_from data in_pos toks ->
  (in_pos <= length data)%nat ->
  (in_pos + list_sum (map coverage toks) = length data)%nat
  /\ Forall (fun t => (min_coverage t <= coverage t)%nat
                      /\ (length (emit t) <= 2 * coverage t)%nat) toks
  /\ (length (flat_map emit toks) <= 2 * list_sum (map coverage toks))%nat.
Proof.
  induction 1 as [in_pos Hend | in_pos rest Hpos Hrest IH]; intros Hle.
  - cbn. repeat split; [lia | constructor | lia].
  - destruct (compress_step_bounds data in_pos Hpos) as (Hmin & Hin & Hout).
    destruct (IH Hin) as (Hsum & Hall & Hlen).
    cbn [map list_sum flat_map fold_right].
    change (fold_right Nat.add 0%nat (map coverage rest))
      with (list_sum (map coverage rest)).
    rewrite length_app.
    split; [lia|]. split; [constructor; [split|]; assumption | lia].
Qed.

(** *** The decoder reads forward of its cursor only *)

Lemma read_byte_shift pre l k :
  read_byte (pre ++ l) (length pre + k) = read_byte l k.
Proof.
  unfold read_byte. rewrite nth_error_app2 by lia.
  now replace (length pre + k - length pre)%nat with k by lia.
Qed.

Lemma slice_shift pre l k len :
  slice (pre ++ l) (length pre + k) len = slice l k len.
Proof.
  unfold slice. rewrite skipn_app.
  rewrite skipn_all2 by lia.
  now replace (length pre + k - length pre)%nat with k by lia.
Qed.

Lemma read_block_shift pre l k len :
  read_block (pre ++ l) (length pre + k) len = read_block l k len.
Proof.
  unfold read_block. rewrite slice_shift, length_app.
  destruct (len =? 0)%nat; [reflexivity|].
  destruct (k + len <=? length l)%nat eqn:E; to_prop.
  - replace (length pre + k + len <=? length pre + length l)%nat with true
      by (symmetry; apply Nat.leb_le; lia).
    reflexivity.
  - replace (length pre + k + len <=? length pre + length l)%nat with false
      by (symmetry; apply Nat.leb_gt; lia).
    reflexivity.
Qed.

Lemma pattern_copies_shift repeat_count pre l k len :
  pattern_copies repeat_count (pre ++ l) (length pre + k) len
  = pattern_copies repeat_count l k len.
Proof.
  induction repeat_count as [|r IH]; cbn [pattern_copies]; [reflexivity|].
  now rewrite read_block_shift, IH.
Qed.

Lemma nibble_pairs_shift pairs pre l :
  forall k,
    nibble_pairs pairs (pre ++ l) (length pre + k)
    = shift_cursor (length pre) (nibble_pairs pairs l k).
Proof.
  induction pairs as [|p IH]; intros k; cbn [nibble_pairs]; [reflexivity|].
  rewrite read_byte_shift.
  destruct (read_byte l k) as [packed|o]; cbn [bind]; [|reflexivity].
  rewrite plus_n_Sm, IH.
  destruct (nibble_pairs p l (S k)) as [[q bytes]|o]; reflexivity.
Qed.

Lemma decode_step_shift pre l k :
  decode_step (pre ++ l) (length pre + k) = shift_cursor (length pre) (decode_step l k).
Proof.
  unfold decode_step.
  rewrite read_byte_shift.
  destruct (read_byte l k) as [control|o]; cbn [bind]; [|reflexivity].
  rewrite !plus_n_Sm, ?read_byte_shift, nibble_pairs_shift, read_block_shift.
  repeat match goal with
  | |- _ => rewrite read_byte_shift
  | |- _ => rewrite pattern_copies_shift
  | |- _ => rewrite plus_n_Sm
  | |- _ => progress cbn [bind shift_cursor fst snd]
  | |- context [if ?c then _ else _] => destruct c
  | |- context [shift_cursor _ (nibble_pairs ?p ?d ?i)] =>
      destruct (nibble_pairs p d i) as [[? ?]|?]
  | |- context [bind ?m _] =>
      match m with
      | Returned _ => fail 1
      | OutOfBounds _ => fail 1
      | _ => destruct m as [[? ?]|?] || destruct m as [?|?]
      end
  end;
  try reflexivity; f_equal; f_equal; lia.
Qed.

Lemma decompress_loop_eq rounds data compressed_size in_pos out :
  decompress_loop rounds data compressed_size in_pos out =
  if (in_pos <? compressed_size)%nat then
    match rounds with
    | O => None
    | S r =>
        match decode_step data in_pos with
        | Returned (in_pos', bytes) =>
            decompress_loop r data compressed_size in_pos' (out ++ bytes)
        | OutOfBounds o => Some (OutOfBounds o)
        end
    end
  else Some (Returned out).
Proof. destruct rounds; reflexivity. Qed.

Lemma decompress_loop_shift rounds pre l n :
  forall k out,
    decompress_loop rounds (pre ++ l) (length pre + n) (length pre + k) out
    = decompress_loop rounds l n k out.
Proof.
  induction rounds as [|r IH]; intros k out;
    rewrite (decompress_loop_eq _ (pre ++ l)), (decompress_loop_eq _ l);
    replace (length pre + k <? length pre + n)%nat with (k <? n)%nat
      by (destruct (k <? n)%nat eqn:E; symmetry; to_prop;
          [apply Nat.ltb_lt | apply Nat.ltb_ge]; lia);
    [reflexivity|].
  destruct (k <? n)%nat; [|reflexivity].
  rewrite decode_step_shift.
  destruct (decode_step l k) as [[q bytes]|o]; cbn [shift_cursor]; [|reflexivity].
  apply IH.
Qed.

(** *** Control and info bytes *)

Lemma below_forallb (P : nat -> bool) m :
  forallb P (seq 0 m) = true -> forall n, (n < m)%nat -> P n = true.
Proof.
  intros H n Hn. rewrite forallb_forall in H. apply H, in_seq. lia.
Qed.

Lemma control_check_literal n : (n < 64)%nat -> control_check MODE_LITERAL n = true.
Proof. apply (below_forallb (control_check MODE_LITERAL) 64). now vm_compute. Qed.

Lemma control_check_rle n : (n < 64)%nat -> control_check MODE_RLE n = true.
Proof. apply (below_forallb (control_check MODE_RLE) 64). now vm_compute. Qed.

Lemma control_check_nibble n : (n < 64)%nat -> control_check MODE_NIBBLE n = true.
Proof. apply (below_forallb (control_check MODE_NIBBLE) 64). now vm_compute. Qed.

Lemma control_check_delta n :
  (n < 64)%nat -> escape_length n = false -> control_check MODE_DELTA n = true.
Proof.
  intros Hn Hesc.
  assert (H : escape_length n || control_check MODE_DELTA n = true).
  { revert n Hn Hesc. intros n Hn _. revert n Hn.
    apply (below_forallb (fun n => escape_length n || control_check MODE_DELTA n) 64).
    now vm_compute. }
  now rewrite Hesc in H.
Qed.

Lemma common_info_check_ok run_length common_idx :
  (run_length < 16)%nat -> (common_idx < 8)%nat ->
  common_info_check run_length common_idx = true.
Proof.
  intros Hr Hi.
  assert (H : forallb (common_info_check run_length) (seq 0 8) = true).
  { revert run_length Hr.
    apply (below_forallb (fun r => forallb (common_info_check r) (seq 0 8)) 16).
    now vm_compute. }
  now apply (below_forallb _ 8 H).
Qed.

Lemma nibble_check_ok hi lo :
  (hi < 16)%nat -> (lo < 16)%nat -> nibble_check hi lo = true.
Proof.
  intros Hh Hl.
  assert (H : forallb (nibble_check hi) (seq 0 16) = true).
  { revert hi Hh.
    apply (below_forallb (fun h => forallb (nibble_check h) (seq 0 16)) 16).
    now vm_compute. }
  now apply (below_forallb _ 16 H).
Qed.

(** The mode dispatch of the decoder on a control byte that is no escape. *)
Lemma decode_step_plain mode n rest :
  control_check mode n = true ->
  decode_step (Z.lor mode (u8 (Z.of_nat n)) :: rest) 0 =
  let data := Z.lor mode (u8 (Z.of_nat n)) :: rest in
  if mode =? MODE_RLE then
    value <- read_byte data 1 ;;
    Returned (2%nat, repeat value n)
  else if mode =? MODE_DELTA then
    start <- read_byte data 1 ;;
    d <- read_byte data 2 ;;
    Returned (3%nat, delta_expand start (d - 16) n)
  else if mode =? MODE_NIBBLE then
    r <- nibble_pairs (n / 2) data 1 ;;
    if (n mod 2 =? 0)%nat then Returned r
    else
      last <- read_byte data (fst r) ;;
      Returned (S (fst r), snd r ++ [Z.shiftr last 4])
  else
    bytes <- read_block data 1 n ;;
    Returned ((1 + n)%nat, bytes).
Proof.
  unfold control_check, decode_step.
  set (control := Z.lor mode (u8 (Z.of_nat n))).
  intros H.
  apply andb_true_iff in H; destruct H as [H Hlen].
  apply andb_true_iff in H; destruct H as [H Hmode].
  apply andb_true_iff in H; destruct H as [H Hcommon].
  apply andb_true_iff in H; destruct H as [Hzero Hpattern].
  apply negb_true_iff in Hzero, Hpattern, Hcommon.
  apply Z.eqb_eq in Hmode. apply Nat.eqb_eq in Hlen.
  change (read_byte (control :: rest) 0) with (Returned (A := Z) control).
  cbn [bind].
  rewrite Hzero, Hpattern, Hcommon, Hmode, Hlen.
  reflexivity.
Qed.

(** *** Decoding what the encoder emits *)

Lemma nibble_branch_next n x l k :
  nibble_branch n (x :: l) (S k) = shift_cursor 1 (nibble_branch n l k).
Proof.
  unfold nibble_branch.
  change (nibble_pairs (n / 2) (x :: l) (S k))
    with (nibble_pairs (n / 2) ([x] ++ l) (length [x] + k)).
  rewrite nibble_pairs_shift.
  destruct (nibble_pairs (n / 2) l k) as [[q bytes]|o]; cbn [bind shift_cursor fst snd];
    [|reflexivity].
  destruct (n mod 2 =? 0)%nat; [reflexivity|].
  change (read_byte (x :: l) (length [x] + q)) with (read_byte l q).
  destruct (read_byte l q); reflexivity.
Qed.

Lemma nibble_branch_pair n packed l :
  nibble_branch (S (S n)) (packed :: l) 0 =
  match nibble_branch n l 0 with
  | Returned (q, bytes) =>
      Returned (S q, Z.shiftr packed 4 :: Z.land packed 0x0F :: bytes)
  | OutOfBounds o => OutOfBounds o
  end.
Proof.
  unfold nibble_branch.
  replace (S (S n)) with (n + 1 * 2)%nat by lia.
  rewrite Nat.div_add, Nat.Div0.mod_add by lia.
  replace (n / 2 + 1)%nat with (S (n / 2)) by lia.
  cbn [nibble_pairs].
  change (read_byte (packed :: l) 0) with (Returned (A := Z) packed).
  cbn [bind].
  change (nibble_pairs (n / 2) (packed :: l) 1)
    with (nibble_pairs (n / 2) ([packed] ++ l) (length [packed] + 0)).
  rewrite nibble_pairs_shift.
  destruct (nibble_pairs (n / 2) l 0) as [[q bytes]|o]; cbn [bind shift_cursor fst snd];
    [|reflexivity].
  destruct (n mod 2 =? 0)%nat; [reflexivity|].
  change (read_byte (packed :: l) (length [packed] + q)) with (read_byte l q).
  destruct (read_byte l q); reflexivity.
Qed.

Lemma nibble_pair_unpack hi lo :
  0 <= hi < 16 -> 0 <= lo < 16 ->
  Z.shiftr (u8 (Z.lor (Z.shiftl hi 4) lo)) 4 = hi
  /\ Z.land (u8 (Z.lor (Z.shiftl hi 4) lo)) 0x0F = lo
  /\ Z.shiftr (u8 (Z.shiftl hi 4)) 4 = hi.
Proof.
  intros Hh Hl.
  assert (H := nibble_check_ok (Z.to_nat hi) (Z.to_nat lo) ltac:(lia) ltac:(lia)).
  unfold nibble_check in H. rewrite !Z2Nat.id in H by lia.
  apply andb_true_iff in H; destruct H as [H H3].
  apply andb_true_iff in H; destruct H as [H1 H2].
  apply Z.eqb_eq in H1, H2, H3. auto.
Qed.

Lemma nibble_branch_unpack values post :
  Forall (fun v => 0 <= v < 16) values ->
  nibble_branch (length values) (pack_nibbles values ++ post) 0
  = Returned (length (pack_nibbles values), values).
Proof.
  enough (H : forall values,
             (Forall (fun v => 0 <= v < 16) values ->
              nibble_branch (length values) (pack_nibbles values ++ post) 0
              = Returned (length (pack_nibbles values), values))
             /\ (forall v, Forall (fun v => 0 <= v < 16) (v :: values) ->
                 nibble_branch (length (v :: values)) (pack_nibbles (v :: values) ++ post) 0
                 = Returned (length (pack_nibbles (v :: values)), v :: values)))
    by apply H.
  clear values; induction values as [|lo rest [IH1 IH2]].
  - split; [reflexivity|].
    intros v Hv. inversion Hv as [|? ? Hv0 _]; subst.
    destruct (nibble_pair_unpack v 0 Hv0 ltac:(lia)) as (_ & _ & H3).
    unfold nibble_branch.
    change (length [v]) with 1%nat.
    change (1 / 2)%nat with 0%nat.
    change (1 mod 2 =? 0)%nat with false.
    cbn [nibble_pairs bind fst snd read_byte nth_error app pack_nibbles length].
    now rewrite H3.
  - split; [apply IH2|].
    intros hi Hall.
    inversion Hall as [|? ? Hhi Hall']; subst.
    inversion Hall' as [|? ? Hlo Hrest]; subst.
    destruct (nibble_pair_unpack hi lo Hhi Hlo) as (H1 & H2 & _).
    cbn [pack_nibbles length app].
    rewrite nibble_branch_pair, (IH1 Hrest), H1, H2.
    reflexivity.
Qed.

Lemma read_palette_lt common_idx :
  (common_idx < 8)%nat ->
  read_palette common_idx = Returned (nth common_idx common_values 0).
Proof.
  intros H; unfold read_palette.
  now rewrite (nth_error_nth' common_values 0) by (cbn; lia).
Qed.

Lemma read_block_exact x bytes post :
  read_block (x :: bytes ++ post) 1 (length bytes) = Returned bytes.
Proof.
  unfold read_block.
  destruct (length bytes =? 0)%nat eqn:Hnil; to_prop.
  - apply length_zero_iff_nil in Hnil; now subst.
  - replace (1 + length bytes <=? length (x :: bytes ++ post))%nat with true
      by (symmetry; apply Nat.leb_le; cbn [length]; rewrite length_app; lia).
    unfold slice; cbn [skipn].
    rewrite firstn_app, firstn_all, Nat.sub_diag.
    cbn [firstn]. now rewrite app_nil_r.
Qed.

(** One round of the decoder on the bytes of a decodable token: it consumes
    exactly these bytes and writes what the token stands for. *)
Lemma decode_step_emit t post :
  decodable t ->
  decode_step (emit t ++ post) 0 = Returned (length (emit t), expand t).
Proof.
  destruct t as [zero_count | start delta delta_length | values | p
                 | common_idx run_length | current run_length | bytes];
    cbn [decodable emit expand app]; intros Hd.
  - unfold decode_step.
    change (read_byte (EXT_ZERO_RUN :: _) 0) with (Returned (A := Z) EXT_ZERO_RUN).
    cbn [bind].
    change (EXT_ZERO_RUN =? EXT_ZERO_RUN) with true; cbv iota.
    change (read_byte (EXT_ZERO_RUN :: u8 (Z.of_nat zero_count) :: post) 1)
      with (Returned (A := Z) (u8 (Z.of_nat zero_count))).
    cbn [bind length].
    unfold u8. rewrite Z.mod_small, Nat2Z.id by lia. reflexivity.
  - destruct Hd as (Hlen & Hesc & Hdelta).
    rewrite decode_step_plain by (apply control_check_delta; [lia|assumption]).
    cbv zeta.
    change (MODE_DELTA =? MODE_RLE) with false.
    change (MODE_DELTA =? MODE_DELTA) with true. cbv iota.
    cbn [read_byte nth_error bind length].
    unfold u8. rewrite Z.mod_small by lia.
    now replace (delta + 16 - 16) with delta by lia.
  - destruct Hd as (Hlen & Hall).
    rewrite decode_step_plain by (apply control_check_nibble; lia).
    cbv zeta.
    change (MODE_NIBBLE =? MODE_RLE) with false.
    change (MODE_NIBBLE =? MODE_DELTA) with false.
    change (MODE_NIBBLE =? MODE_NIBBLE) with true. cbv iota.
    fold (nibble_branch (length values)
            (Z.lor MODE_NIBBLE (u8 (Z.of_nat (length values)))
             :: pack_nibbles values ++ post) 1).
    rewrite nibble_branch_next, nibble_branch_unpack by assumption.
    reflexivity.
  - contradiction.
  - destruct Hd as (Hidx & Hrun).
    unfold decode_step.
    change (read_byte (EXT_COMMON_VAL :: _) 0) with (Returned (A := Z) EXT_COMMON_VAL).
    cbn [bind].
    change (EXT_COMMON_VAL =? EXT_ZERO_RUN) with false.
    change (EXT_COMMON_VAL =? EXT_PATTERN) with false.
    change (EXT_COMMON_VAL =? EXT_COMMON_VAL) with true. cbv iota.
    cbn [read_byte nth_error bind].
    assert (H := common_info_check_ok run_length common_idx ltac:(lia) Hidx).
    unfold common_info_check in H.
    apply andb_true_iff in H; destruct H as [H1 H2].
    apply Nat.eqb_eq in H1, H2.
    rewrite H1, H2, read_palette_lt by assumption.
    reflexivity.
  - rewrite decode_step_plain by (apply control_check_rle; lia).
    cbv zeta.
    change (MODE_RLE =? MODE_RLE) with true. cbv iota.
    reflexivity.
  - rewrite decode_step_plain by (apply control_check_literal; lia).
    cbv zeta.
    change (MODE_LITERAL =? MODE_RLE) with false.
    change (MODE_LITERAL =? MODE_DELTA) with false.
    change (MODE_LITERAL =? MODE_NIBBLE) with false. cbv iota.
    rewrite read_block_exact. reflexivity.
Qed.

Lemma emit_nonempty t : (1 <= length (emit t))%nat.
Proof. destruct t; cbn [emit length]; lia. Qed.

(** The decoder on the bytes of a list of decodable tokens, whatever follows
    them in the buffer. *)
Lemma decompress_loop_tokens toks :
  forall post out rounds,
    Forall decodable toks ->
    (length toks <= rounds)%nat ->
    decompress_loop rounds (flat_map emit toks ++ post)
      (length (flat_map emit toks)) 0 out
    = Some (Returned (out ++ flat_map expand toks)).
Proof.
  induction toks as [|t rest IH]; intros post out rounds Hall Hrounds;
    rewrite decompress_loop_eq.
  - cbn. now rewrite app_nil_r.
  - inversion Hall as [|? ? Ht Hrest]; subst.
    cbn [flat_map]. rewrite length_app.
    pose proof (emit_nonempty t) as Hne.
    replace (0 <? length (emit t) + length (flat_map emit rest))%nat with true
      by (symmetry; apply Nat.ltb_lt; lia).
    destruct rounds as [|r]; [cbn [length] in Hrounds; lia|].
    rewrite <- app_assoc, decode_step_emit by assumption.
    rewrite <- (Nat.add_0_r (length (emit t))) at 2.
    rewrite decompress_loop_shift, IH; [|assumption|cbn [length] in Hrounds; lia].
    now rewrite <- app_assoc.
Qed.

(** *** What the encoder emits is what it covers *)

Lemma byte_at_is_byte data i :
  Forall is_byte data -> (i < length data)%nat -> is_byte (byte_at data i).
Proof.
  intros Hall Hi. rewrite Forall_forall in Hall.
  apply Hall, nth_In, Hi.
Qed.

Lemma land_127 x : Z.land x 0x7F = x mod 128.
Proof. change 0x7F with (Z.ones 7). now rewrite Z.land_ones by lia. Qed.

(** The [size_t] arithmetic of the decoder's Delta loop, modulo 128. *)
Lemma delta_value_mod start delta i :
  delta_value start delta i = (start + Z.of_nat i * delta) mod 128.
Proof.
  unfold delta_value, size_wrap, SIZE_MODULUS.
  rewrite land_127.
  rewrite Z.mod_mod_divide by (exists (2 ^ 57); reflexivity).
  rewrite (Z.mod_eq delta (2 ^ 64)) by lia.
  set (q0 := delta / 2 ^ 64).
  rewrite (Z.mod_eq (Z.of_nat i * (delta - 2 ^ 64 * q0)) (2 ^ 64)) by lia.
  set (q1 := Z.of_nat i * (delta - 2 ^ 64 * q0) / 2 ^ 64).
  replace (start + (Z.of_nat i * (delta - 2 ^ 64 * q0) - 2 ^ 64 * q1))
    with (start + Z.of_nat i * delta + (- (2 ^ 57) * (Z.of_nat i * q0 + q1)) * 128)
    by (change (2 ^ 64) with (2 ^ 57 * 128); ring).
  apply Z_mod_plus_full.
Qed.

(** The bytes an accepted delta sequence covers form the progression the
    decoder rebuilds, when the first two are below 128. *)
Lemma delta_progression data start delta len :
  Forall is_byte data ->
  is_delta_sequence data start = (true, delta, len) ->
  byte_at data start < 128 -> byte_at data start + delta < 128 ->
  forall k, (k < len)%nat ->
    byte_at data (start + k) = (byte_at data start + Z.of_nat k * delta) mod 128.
Proof.
  intros Hbytes Hdelta Hs Hsd.
  apply is_delta_sequence_true in Hdelta.
  destruct Hdelta as (Hsize & Hd & _ & Hlen & Hin & Hstep).
  assert (H0 := byte_at_is_byte data start Hbytes ltac:(lia)).
  assert (H1 := byte_at_is_byte data (start + 1) Hbytes ltac:(lia)).
  unfold is_byte in H0, H1.
  induction k as [|k IH]; intros Hk.
  - rewrite Nat.add_0_r, Z.mod_small; lia.
  - destruct k as [|k].
    + rewrite Z.mod_small; lia.
    + rewrite Hstep by lia.
      replace (start + S (S k) - 1)%nat with (start + S k)%nat by lia.
      rewrite IH by lia.
      rewrite land_127, Zplus_mod_idemp_l.
      f_equal; lia.
Qed.

Lemma compress_step_faithful data in_pos :
  fits_size_t data -> Forall is_byte data ->
  (in_pos < length data)%nat ->
  delta_clean (compress_step data in_pos) ->
  decodable (compress_step data in_pos)
  /\ expand (compress_step data in_pos)
     = slice data in_pos (coverage (compress_step data in_pos)).
Proof.
  intros Hfit Hbytes Hpos; unfold compress_step.
  destruct ((byte_at data in_pos =? 0) && (3 <=? zero_run_scan data in_pos)%nat)
    eqn:Hzero.
  { intros _. to_prop.
    destruct (zero_run_scan_bounds data in_pos Hpos) as [Hz1 Hz2].
    cbn [decodable expand coverage]. split; [lia|].
    symmetry; apply slice_const; [assumption|].
    intros k Hk. destruct k as [|k].
    - now rewrite Nat.add_0_r.
    - apply zero_run_scan_zeros; lia. }
  destruct (is_delta_sequence data in_pos) as [[is_delta delta] delta_length] eqn:Hdelta.
  destruct is_delta.
  { cbn [delta_clean decodable expand coverage]. intros (Hs & Hsd & Hesc).
    pose proof (delta_progression data in_pos delta delta_length Hbytes Hdelta Hs Hsd)
      as Hprog.
    apply is_delta_sequence_true in Hdelta.
    destruct Hdelta as (_ & _ & Hrange & Hlen & Hin & _).
    split; [repeat split; (assumption || lia)|].
    apply (nth_ext _ _ 0 0).
    - unfold delta_expand. rewrite length_map, length_seq, slice_length; auto.
    - unfold delta_expand. rewrite length_map, length_seq. intros k Hk.
      rewrite slice_nth by assumption.
      rewrite (nth_indep _ 0 (delta_value (byte_at data in_pos) delta 0))
        by (rewrite length_map, length_seq; assumption).
      rewrite map_nth, seq_nth by assumption.
      rewrite delta_value_mod, Hprog by assumption. reflexivity. }
  destruct (can_nibble_pack data in_pos) as [is_nibble nibble_length] eqn:Hnibble.
  destruct is_nibble.
  { intros _. unfold can_nibble_pack in Hnibble.
    pose proof (f_equal snd Hnibble) as Hlen.
    cbn [fst snd] in Hlen; clear Hnibble.
    destruct (nibble_scan_bounds data in_pos) as [Hn1 Hn2]; [lia|].
    rewrite Hlen in *.
    cbn [decodable expand coverage].
    rewrite slice_length by assumption.
    split; [split; [lia|]|reflexivity].
    apply Forall_forall. intros v Hv.
    apply (In_nth _ _ 0) in Hv. destruct Hv as (k & Hk & <-).
    rewrite slice_length in Hk by assumption.
    rewrite slice_nth by assumption.
    pose proof (byte_at_is_byte data (in_pos + k) Hbytes ltac:(lia)) as Hb.
    unfold is_byte in Hb.
    assert (byte_at data (in_pos + k) < 16)
      by (apply nibble_scan_small; rewrite Hlen; assumption).
    lia. }
  rewrite (find_pattern_never data in_pos Hfit).
  change ((2 <=? pat_count Pattern_zero)%nat && (2 <=? pat_length Pattern_zero)%nat)
    with false; cbv iota.
  destruct (run_scan_bounds data in_pos Hpos) as [Hr1 Hr2].
  assert (Hrun_slice : slice data in_pos (run_scan data in_pos)
                       = repeat (byte_at data in_pos) (run_scan data in_pos)).
  { apply slice_const; [assumption|].
    intros k Hk. destruct k as [|k].
    - now rewrite Nat.add_0_r.
    - apply run_scan_same; lia. }
  destruct (3 <=? run_scan data in_pos)%nat eqn:Hrun.
  { intros _.
    destruct (common_index (byte_at data in_pos)) as [common_idx|] eqn:Hidx;
      [destruct (run_scan data in_pos <=? 15)%nat eqn:Hshort|];
      cbn [decodable expand coverage]; to_prop.
    - apply common_index_Some in Hidx. destruct Hidx as [Hlt Hval].
      rewrite Hval. split; [lia|]. now symmetry.
    - split; [lia|]. now symmetry.
    - split; [lia|]. now symmetry. }
  intros _.
  destruct (literal_scan_bounds 63 data in_pos 0) as [Hl1 Hl2]; [lia|lia|].
  cbn [decodable expand coverage].
  rewrite slice_length by lia. split; [lia|reflexivity].
Qed.

Lemma tokens_from_faithful data in_pos toks :
  fits_size_t data -> Forall is_byte data ->
  tokens_from data in_pos toks ->
  Forall delta_clean toks ->
  Forall decodable toks /\ flat_map expand toks = skipn in_pos data.
Proof.
  intros Hfit Hbytes.
  induction 1 as [in_pos Hend | in_pos rest Hpos Hrest IH]; intros Hclean.
  - split; [constructor|]. cbn. now rewrite skipn_all2.
  - inversion Hclean as [|? ? Ht Hc]; subst.
    destruct (compress_step_faithful data in_pos Hfit Hbytes Hpos Ht) as [Hdec Hexp].
    destruct (IH Hc) as [Hall Hflat].
    split; [constructor; assumption|].
    cbn [flat_map]. rewrite Hexp, Hflat. symmetry; apply skipn_slice.
Qed.

Lemma flat_map_emit_length toks :
  (length toks <= length (flat_map emit toks))%nat.
Proof.
  induction toks as [|t rest IH]; cbn [flat_map length]; [lia|].
  rewrite length_app. pose proof (emit_nonempty t). lia.
Qed.

(** Round trip for every input whose Delta tokens are all clean. *)
Lemma round_trip_clean data tail toks :
  fits_size_t data -> Forall is_byte data ->
  advanced_tokens data = Some toks ->
  Forall delta_clean toks ->
  advanced_decompress (flat_map emit toks ++ tail) (length (flat_map emit toks))
  = Some (Returned data).
Proof.
  intros Hfit Hbytes Htoks Hclean.
  apply compress_loop_tokens_from in Htoks.
  destruct (tokens_from_faithful data 0 toks Hfit Hbytes Htoks Hclean) as [Hdec Hflat].
  unfold advanced_decompress.
  rewrite decompress_loop_tokens; [|assumption|apply flat_map_emit_length].
  now rewrite Hflat.
Qed.

(** *** The decoder's loop never runs out of rounds *)

Lemma nibble_pairs_advance pairs data :
  forall k q bytes,
    nibble_pairs pairs data k = Returned (q, bytes) -> (k <= q)%nat.
Proof.
  induction pairs as [|p IH]; intros k q bytes; cbn [nibble_pairs].
  - intros H; injection H as <- _. lia.
  - destruct (read_byte data k); cbn [bind]; [|discriminate].
    destruct (nibble_pairs p data (S k)) as [[q' bytes']|o] eqn:E; cbn [bind fst snd];
      [|discriminate].
    intros H; injection H as <- _.
    apply IH in E. lia.
Qed.

Lemma decode_step_advance data k q bytes :
  decode_step data k = Returned (q, bytes) -> (k < q)%nat.
Proof.
  unfold decode_step.
  destruct (read_byte data k) as [control|]; cbn [bind]; [|discriminate].
  repeat match goal with
  | |- context [if ?c then _ else _] => destruct c
  | |- context [nibble_pairs ?p ?d ?i] =>
      let E := fresh "E" in
      destruct (nibble_pairs p d i) as [[? ?]|?] eqn:E;
      [apply nibble_pairs_advance in E|]
  | |- context [bind ?m _] =>
      match m with
      | Returned _ => fail 1
      | OutOfBounds _ => fail 1
      | _ => destruct m as [?|?]
      end
  | |- _ => progress cbn [bind fst snd]
  end;
  intros H; try discriminate; injection H as <- _; lia.
Qed.

Lemma decompress_loop_total rounds data compressed_size :
  forall in_pos out,
    (compressed_size - in_pos <= rounds)%nat ->
    decompress_loop rounds data compressed_size in_pos out <> None.
Proof.
  induction rounds as [|r IH]; intros in_pos out Hrounds;
    rewrite decompress_loop_eq;
    destruct (in_pos <? compressed_size)%nat eqn:Hpos; to_prop;
    try discriminate; [lia|].
  destruct (decode_step data in_pos) as [[q bytes]|o] eqn:Hstep; [|discriminate].
  apply decode_step_advance in Hstep.
  apply IH; lia.
Qed.

Lemma advanced_decompress_total data compressed_size :
  exists r, advanced_decompress data compressed_size = Some r.
Proof.
  unfold advanced_decompress.
  destruct (decompress_loop compressed_size data compressed_size 0 []) as [r|] eqn:E.
  - now exists r.
  - apply decompress_loop_total in E; [contradiction|lia].
Qed.

Lemma advanced_compress_total data :
  exists toks, advanced_tokens data = Some toks.
Proof. apply compress_loop_total; lia. Qed.

(** *** Palette runs *)

Lemma zero_run_scan_three data in_pos :
  (in_pos + 2 < length data)%nat ->
  byte_at data (in_pos + 1) = 0 -> byte_at data (in_pos + 2) = 0 ->
  (3 <= zero_run_scan data in_pos)%nat.
Proof.
  intros Hlen H1 H2; unfold zero_run_scan.
  apply (count_while_past _ 255 1 2); [lia|].
  intros j Hj.
  assert (Hcase : j = 1%nat \/ j = 2%nat) by lia.
  destruct Hcase as [-> | ->].
  - rewrite H1.
    replace (in_pos + 1 <? length data)%nat with true
      by (symmetry; apply Nat.ltb_lt; lia).
    reflexivity.
  - rewrite H2.
    replace (in_pos + 2 <? length data)%nat with true
      by (symmetry; apply Nat.ltb_lt; lia).
    reflexivity.
Qed.

Lemma delta_scan_three data start delta :
  (start + 2 < length data)%nat ->
  byte_at data (start + 2) = Z.land (byte_at data (start + 1) + delta) 0x7F ->
  (3 <= delta_scan data start delta)%nat.
Proof.
  intros Hlen H2; unfold delta_scan.
  apply (count_while_past _ 63 2 2); [lia|].
  intros j Hj. replace j with 2%nat by lia.
  cbv beta zeta.
  replace (start + 2 - 1)%nat with (start + 1)%nat by lia.
  rewrite <- H2, Z.eqb_refl.
  replace (start + 2 <? length data)%nat with true
    by (symmetry; apply Nat.ltb_lt; lia).
  reflexivity.
Qed.

(** Three equal bytes below 128 at the cursor: the zero-run branch takes
    them when they are 0, the delta branch (with delta 0) otherwise. *)
Lemma low_run_claimed data in_pos v :
  (in_pos + 2 < length data)%nat ->
  0 <= v < 128 ->
  byte_at data in_pos = v ->
  byte_at data (in_pos + 1) = v ->
  byte_at data (in_pos + 2) = v ->
  exists n, (3 <= n)%nat
    /\ ((v = 0 /\ compress_step data in_pos = ZeroRun n)
        \/ (v <> 0 /\ compress_step data in_pos = Delta v 0 n)).
Proof.
  intros Hlen Hv H0 H1 H2; unfold compress_step.
  rewrite H0.
  destruct (Z.eqb_spec v 0) as [-> | Hnz]; cbn [andb].
  - assert (Hz : (3 <= zero_run_scan data in_pos)%nat)
      by (apply zero_run_scan_three; assumption).
    replace (3 <=? zero_run_scan data in_pos)%nat with true
      by (symmetry; apply Nat.leb_le; assumption).
    eexists; split; [exact Hz|]. left; split; reflexivity.
  - unfold is_delta_sequence.
    replace (length data <? in_pos + 2)%nat with false
      by (symmetry; apply Nat.ltb_ge; lia).
    rewrite H0, H1, Z.sub_diag.
    assert (Hd : (3 <= delta_scan data in_pos 0)%nat).
    { apply delta_scan_three; [assumption|].
      rewrite H1, H2, Z.add_0_r, land_127, Z.mod_small; lia. }
    replace (3 <=? delta_scan data in_pos 0)%nat with true
      by (symmetry; apply Nat.leb_le; assumption).
    cbn [andb Z.leb Z.compare].
    eexists; split; [exact Hd|]. right; split; [assumption|reflexivity].
Qed.

Lemma compress_step_CommonRun data in_pos common_idx run_length :
  compress_step data in_pos = CommonRun common_idx run_length ->
  common_index (byte_at data in_pos) = Some common_idx
  /\ run_length = run_scan data in_pos
  /\ (3 <= run_length)%nat.
Proof.
  unfold compress_step.
  destruct ((byte_at data in_pos =? 0) && (3 <=? zero_run_scan data in_pos)%nat);
    [discriminate|].
  destruct (is_delta_sequence data in_pos) as [[is_delta delta] delta_length].
  destruct is_delta; [discriminate|].
  destruct (can_nibble_pack data in_pos) as [is_nibble nibble_length].
  destruct is_nibble; [discriminate|].
  destruct ((2 <=? pat_count (find_pattern data in_pos))%nat
            && (2 <=? pat_length (find_pattern data in_pos))%nat); [discriminate|].
  destruct (3 <=? run_scan data in_pos)%nat eqn:Hrun; [|discriminate].
  destruct (common_index (byte_at data in_pos)) as [idx|]; [|discriminate].
  destruct (run_scan data in_pos <=? 15)%nat; [|discriminate].
  intros H; injection H as -> <-. to_prop. auto.
Qed.

Lemma compress_step_CommonRun_0xFF data in_pos common_idx run_length :
  (in_pos < length data)%nat ->
  compress_step data in_pos = CommonRun common_idx run_length ->
  common_idx = 5%nat /\ nth common_idx common_values 0 = 0xFF.
Proof.
  intros Hpos Hstep.
  destruct (compress_step_CommonRun _ _ _ _ Hstep) as (Hidx & Hrun & Hthree).
  apply common_index_Some in Hidx. destruct Hidx as [Hlt Hval].
  destruct (run_scan_bounds data in_pos Hpos) as [_ Hin].
  assert (H1 : byte_at data (in_pos + 1) = byte_at data in_pos)
    by (apply run_scan_same; lia).
  assert (H2 : byte_at data (in_pos + 2) = byte_at data in_pos)
    by (apply run_scan_same; lia).
  destruct (Nat.eq_dec common_idx 5) as [-> | Hne]; [split; reflexivity|].
  exfalso.
  assert (Hlow : 0 <= byte_at data in_pos < 128).
  { rewrite <- Hval.
    do 8 (destruct common_idx as [|common_idx]; [cbn; lia || contradiction|]).
    lia. }
  destruct (low_run_claimed data in_pos (byte_at data in_pos)
              ltac:(lia) Hlow eq_refl H1 H2) as (n & _ & [[_ Hc] | [_ Hc]]);
    rewrite Hstep in Hc; discriminate.
Qed.

Lemma tokens_from_CommonRun data in_pos toks :
  tokens_from data in_pos toks ->
  forall common_idx run_length,
    In (CommonRun common_idx run_length) toks ->
    common_idx = 5%nat /\ nth common_idx common_values 0 = 0xFF.
Proof.
  induction 1 as [in_pos Hend | in_pos rest Hpos Hrest IH];
    intros common_idx run_length Hin.
  - destruct Hin.
  - destruct Hin as [Hhere | Hlater].
    + now apply (compress_step_CommonRun_0xFF data in_pos common_idx run_length).
    + now apply (IH common_idx run_length).
Qed.

(** ** The encoder: termination and size *)

(** C10.  The encoder terminates on every input: with one round per input
    byte the main loop returns its tokens; every token emitted covers at
    least the least coverage of its kind (3 for zero runs, delta sequences
    and runs, 4 for nibble packs, 1 for literals), hence at least one byte;
    and the coverages add up to the input length, so the cursor, advanced by
    each token's coverage, ends exactly at the end of the input. *)
Theorem encoder_terminates (data : list Z) :
  exists toks,
    advanced_tokens data = Some toks
    /\ tokens_from data 0 toks
    /\ Forall (fun t => (1 <= min_coverage t <= coverage t)%nat) toks
    /\ list_sum (map coverage toks) = length data.
Proof.
  destruct (advanced_compress_total data) as [toks Htoks].
  exists toks. split; [assumption|].
  pose proof (compress_loop_tokens_from _ _ _ _ Htoks) as Hfrom.
  split; [assumption|].
  destruct (tokens_from_bounds data 0 toks Hfrom ltac:(lia)) as (Hsum & Hall & _).
  split; [|exact Hsum].
  eapply Forall_impl; [|exact Hall].
  intros t [Hmin _]. pose proof (min_coverage_pos t). lia.
Qed.

(** C8.  The encoded size is at most twice the input size: the encoder
    returns on every input, every token it emits writes at most twice the
    number of input bytes it covers, and so does the whole output. *)
Theorem encoded_size_bound (data : list Z) :
  exists toks enc,
    advanced_tokens data = Some toks
    /\ advanced_compress data = Some enc
    /\ Forall (fun t => (length (emit t) <= 2 * coverage t)%nat) toks
    /\ (length enc <= 2 * length data)%nat.
Proof.
  destruct (advanced_compress_total data) as [toks Htoks].
  exists toks, (flat_map emit toks).
  split; [assumption|].
  split; [unfold advanced_compress; now rewrite Htoks|].
  pose proof (compress_loop_tokens_from _ _ _ _ Htoks) as Hfrom.
  destruct (tokens_from_bounds data 0 toks Hfrom ltac:(lia)) as (Hsum & Hall & Hlen).
  split; [|lia].
  eapply Forall_impl; [|exact Hall].
  intros t [_ Hsize]; exact Hsize.
Qed.

(** ** Strategy selection *)

(** C3 (not met by the code).  On the 2-byte unit [0x12 0x34] repeated 10
    times no zero run, delta sequence or nibble pack applies at the cursor,
    yet [find_pattern] returns its initial value (length 0, count 0) and the
    encoder emits the 20 bytes as one literal token, not as a pattern token
    of unit length 2 and count 10. *)
Theorem pattern_input_emitted_as_literal :
  length pattern_input = 20%nat
  /\ byte_at pattern_input 0 <> 0
  /\ fst (fst (is_delta_sequence pattern_input 0)) = false
  /\ fst (can_nibble_pack pattern_input 0) = false
  /\ count_matches pattern_input 0 2 = 10%nat
  /\ find_pattern pattern_input 0 = Pattern_zero
  /\ advanced_tokens pattern_input = Some [Literal pattern_input].
Proof.
  repeat split; try (vm_compute; reflexivity).
  vm_compute; discriminate.
Qed.

(** C4, as the code has it.  The tokens of the worked vector: the five zero
    bytes are a zero-run token, and the four [0x64] bytes are a Delta token
    of delta 0 and length 4, the delta branch coming before the run branch. *)
Theorem worked_vector_tokens :
  advanced_tokens worked_vector
  = Some [Literal [0x03; 0x74]; Delta 0x04 0 3; Literal [0x35; 0x35];
          Delta 0x64 0 4; ZeroRun 5; Literal [0x56; 0x45];
          Delta 0x56 0 3; Delta 0x09 0 3].
Proof. vm_compute; reflexivity. Qed.

(** C4 as stated fails: no token of the worked vector is a run token. *)
Lemma worked_vector_has_no_run_token :
  exists toks,
    advanced_tokens worked_vector = Some toks
    /\ compress_step worked_vector 7 = Delta 0x64 0 4
    /\ ~ exists current run_length, In (Run current run_length) toks.
Proof.
  eexists. split; [vm_compute; reflexivity|].
  split; [vm_compute; reflexivity|].
  intros (current & run_length & Hin).
  cbn [In] in Hin.
  repeat (destruct Hin as [Hin | Hin]; [discriminate|]).
  exact Hin.
Qed.

(** C9.  Every common-value token the encoder emits is for the palette entry
    [0xFF] (index 5); and at any cursor where a run of at least 3 of one of
    the other seven palette values starts, the encoder takes the zero-run
    branch (value [0x00]) or the delta branch with delta 0 (the values below
    128), so the run branch is not reached. *)
Theorem common_run_only_0xFF (data : list Z) :
  (forall toks common_idx run_length,
      advanced_tokens data = Some toks ->
      In (CommonRun common_idx run_length) toks ->
      common_idx = 5%nat /\ nth common_idx common_values 0 = 0xFF)
  /\ (forall in_pos v,
        In v [0x00; 0x01; 0x02; 0x03; 0x04; 0x7F; 0x20] ->
        (in_pos + 3 <= length data)%nat ->
        byte_at data in_pos = v ->
        byte_at data (in_pos + 1) = v ->
        byte_at data (in_pos + 2) = v ->
        exists n, (3 <= n)%nat
          /\ ((v = 0x00 /\ compress_step data in_pos = ZeroRun n)
              \/ (v <> 0x00 /\ compress_step data in_pos = Delta v 0 n))).
Proof.
  split.
  - intros toks common_idx run_length Htoks Hin.
    apply compress_loop_tokens_from in Htoks.
    exact (tokens_from_CommonRun data 0 toks Htoks common_idx run_length Hin).
  - intros in_pos v Hv Hlen H0 H1 H2.
    apply low_run_claimed; try assumption; [lia|].
    cbn [In] in Hv.
    repeat (destruct Hv as [<- | Hv]; [lia|]).
    contradiction.
Qed.

Lemma common_run_only_0xFF_witness :
  advanced_tokens [0xFF; 0xFF; 0xFF; 0x20; 0x20; 0x20] = Some [CommonRun 5 3; Delta 0x20 0 3]
  /\ (5%nat = 5%nat /\ nth 5 common_values 0 = 0xFF)
  /\ exists n, (3 <= n)%nat
       /\ ((0x20 = 0x00
            /\ compress_step [0xFF; 0xFF; 0xFF; 0x20; 0x20; 0x20] 3 = ZeroRun n)
           \/ (0x20 <> 0x00
               /\ compress_step [0xFF; 0xFF; 0xFF; 0x20; 0x20; 0x20] 3 = Delta 0x20 0 n)).
Proof.
  split; [reflexivity|].
  split.
  - apply (proj1 (common_run_only_0xFF [0xFF; 0xFF; 0xFF; 0x20; 0x20; 0x20])
             [CommonRun 5 3; Delta 0x20 0 3] 5%nat 3%nat).
    + reflexivity.
    + left; reflexivity.
  - apply (proj2 (common_run_only_0xFF [0xFF; 0xFF; 0xFF; 0x20; 0x20; 0x20])
             3%nat 0x20).
    + cbn [In]; tauto.
    + cbn [length]; lia.
    + reflexivity.
    + reflexivity.
    + reflexivity.
Defined.

(** ** Round trip *)

Lemma non_arithmetic_clean toks :
  forallb non_arithmetic toks = true -> Forall delta_clean toks.
Proof.
  intros H. rewrite forallb_forall in H.
  apply Forall_forall. intros t Ht. specialize (H t Ht).
  destruct t; cbn in *; (exact I || discriminate).
Qed.

(** C5.  Round trip over the full alphabet for the strategies that do no
    arithmetic: for every buffer of bytes (values 0..255) whose tokens are
    only literal, run, common-value, zero-run and pattern tokens (no Delta,
    no Nibble), the encoder returns a stream, and the decoder, run on that
    stream (whatever follows it in the buffer), returns exactly the input. *)
Theorem round_trip_non_arithmetic (data tail : list Z) (toks : list token) :
  Forall is_byte data ->
  fits_size_t data ->
  advanced_tokens data = Some toks ->
  forallb non_arithmetic toks = true ->
  exists enc,
    advanced_compress data = Some enc
    /\ advanced_decompress (enc ++ tail) (length enc) = Some (Returned data).
Proof.
  intros Hbytes Hfit Htoks Hplain.
  exists (flat_map emit toks).
  split; [unfold advanced_compress; now rewrite Htoks|].
  apply round_trip_clean; try assumption.
  now apply non_arithmetic_clean.
Qed.

Lemma round_trip_non_arithmetic_witness :
  advanced_tokens full_alphabet_sample
  = Some [CommonRun 5 3; ZeroRun 4; Literal [0xC8; 0x11]; Run 0x90 20;
          Literal [0x05; 0x05]]
  /\ exists enc,
       advanced_compress full_alphabet_sample = Some enc
       /\ advanced_decompress (enc ++ []) (length enc)
          = Some (Returned full_alphabet_sample).
Proof.
  split; [reflexivity|].
  apply (round_trip_non_arithmetic full_alphabet_sample []
           [CommonRun 5 3; ZeroRun 4; Literal [0xC8; 0x11]; Run 0x90 20;
            Literal [0x05; 0x05]]).
  - unfold full_alphabet_sample, is_byte.
    repeat (apply Forall_cons; [lia|]). apply Forall_nil.
  - unfold fits_size_t, SIZE_MODULUS. cbn [full_alphabet_sample length app repeat].
    lia.
  - reflexivity.
  - reflexivity.
Defined.

Lemma compress_step_Delta data in_pos start delta delta_length :
  compress_step data in_pos = Delta start delta delta_length ->
  start = byte_at data in_pos
  /\ is_delta_sequence data in_pos = (true, delta, delta_length).
Proof.
  unfold compress_step.
  destruct ((byte_at data in_pos =? 0) && (3 <=? zero_run_scan data in_pos)%nat);
    [discriminate|].
  destruct (is_delta_sequence data in_pos) as [[is_delta d] n].
  destruct is_delta.
  { intros H; injection H as <- <- <-. split; reflexivity. }
  destruct (can_nibble_pack data in_pos) as [is_nibble nibble_length].
  destruct is_nibble; [discriminate|].
  destruct ((2 <=? pat_count (find_pattern data in_pos))%nat
            && (2 <=? pat_length (find_pattern data in_pos))%nat); [discriminate|].
  destruct (3 <=? run_scan data in_pos)%nat; [|discriminate].
  destruct (common_index (byte_at data in_pos)) as [idx|]; [|discriminate].
  destruct (run_scan data in_pos <=? 15)%nat; discriminate.
Qed.

Lemma tokens_from_delta_clean data in_pos toks :
  Forall (fun b => 0 <= b < 128) data ->
  tokens_from data in_pos toks ->
  Forall no_escape toks -> Forall delta_clean toks.
Proof.
  intros Hlow.
  assert (Hat : forall i, (i < length data)%nat -> byte_at data i < 128).
  { intros i Hi. rewrite Forall_forall in Hlow.
    apply (Hlow (byte_at data i)), nth_In, Hi. }
  induction 1 as [in_pos Hend | in_pos rest Hpos Hrest IH]; intros Hesc.
  - constructor.
  - inversion Hesc as [|? ? Ht Hr]; subst.
    constructor; [|now apply IH].
    destruct (compress_step data in_pos) as [| start delta delta_length | | | | |] eqn:Hstep;
      try exact I.
    apply compress_step_Delta in Hstep. destruct Hstep as [-> Hdelta].
    apply is_delta_sequence_true in Hdelta.
    destruct Hdelta as (Hsize & -> & _).
    cbn [delta_clean no_escape] in *.
    pose proof (Hat in_pos ltac:(lia)). pose proof (Hat (in_pos + 1)%nat ltac:(lia)).
    repeat split; (assumption || lia).
Qed.

(** Where the round trip over the restricted alphabet does hold: on every
    buffer of values 0..127 none of whose Delta tokens has one of the lengths
    32, 48 and 50. *)
Lemma round_trip_restricted data tail toks :
  Forall (fun b => 0 <= b < 128) data ->
  fits_size_t data ->
  advanced_tokens data = Some toks ->
  Forall no_escape toks ->
  advanced_decompress (flat_map emit toks ++ tail) (length (flat_map emit toks))
  = Some (Returned data).
Proof.
  intros Hlow Hfit Htoks Hesc.
  apply round_trip_clean; try assumption.
  - eapply Forall_impl; [|exact Hlow]. unfold is_byte; intros b Hb; cbv beta in Hb; lia.
  - apply (tokens_from_delta_clean data 0); try assumption.
    now apply compress_loop_tokens_from in Htoks.
Qed.

(** C1 (not met by the code).  Round trip over the restricted alphabet
    fails on 32 bytes of value 5, all in 0..127: the encoder emits them as
    one Delta token of length 32, whose control byte [MODE_DELTA | 32] is
    the escape code [EXT_PATTERN]; the decoder takes the stream for a
    pattern escape followed by a 16-byte literal, and whatever follows the
    stream in its buffer it does not return the input. *)
Theorem round_trip_fails_at_delta_length_32 :
  Forall (fun b => 0 <= b < 128) (repeat 5 32)
  /\ advanced_tokens (repeat 5 32) = Some [Delta 5 0 32]
  /\ advanced_compress (repeat 5 32) = Some [EXT_PATTERN; 0x05; 0x10]
  /\ forall tail,
       advanced_decompress ([EXT_PATTERN; 0x05; 0x10] ++ tail) 3
       <> Some (Returned (repeat 5 32)).
Proof.
  split; [apply Forall_forall; intros b Hb; apply repeat_spec in Hb; lia|].
  split; [vm_compute; reflexivity|].
  split; [vm_compute; reflexivity|].
  intros tail.
  unfold advanced_decompress.
  rewrite decompress_loop_eq. change (0 <? 3)%nat with true. cbv iota.
  change (decode_step ([EXT_PATTERN; 5; 16] ++ tail) 0)
    with (Returned (2%nat, @nil Z)).
  cbv beta iota.
  rewrite decompress_loop_eq. change (2 <? 3)%nat with true. cbv iota.
  assert (Hstep : decode_step ([EXT_PATTERN; 5; 16] ++ tail) 2
                  = (bytes <- read_block ([EXT_PATTERN; 5; 16] ++ tail) 3 16 ;;
                     Returned (19%nat, bytes))) by reflexivity.
  rewrite Hstep; clear Hstep.
  unfold read_block. change (16 =? 0)%nat with false. cbv iota.
  match goal with
  | |- context [if ?c then Returned _ else _] => destruct c eqn:Hlen
  end; cbn [bind]; [|discriminate].
  rewrite decompress_loop_eq. change (19 <? 3)%nat with false. cbv iota.
  intros H. injection H as H.
  apply (f_equal (@length Z)) in H.
  to_prop.
  cbn [app] in H, Hlen.
  rewrite slice_length in H by assumption.
  discriminate H.
Qed.

(** ** The decoder on malformed streams *)


(** A Delta token cut after its start byte: on a two-byte stream made of a
    Delta control byte (of any length that is no escape code) and its start
    byte, the decoder takes the delta byte from the buffer position after
    the stream and returns the sequence built from it; when the buffer ends
    with the stream, the read is outside the buffer. *)
Lemma truncated_delta_stream_reads_buffer (n : nat) (start d : Z) (rest : list Z) :
  (n < 64)%nat ->
  escape_length n = false ->
  advanced_decompress (Z.lor MODE_DELTA (u8 (Z.of_nat n)) :: start :: d :: rest) 2
  = Some (Returned (delta_expand start (d - 16) n))
  /\ advanced_decompress [Z.lor MODE_DELTA (u8 (Z.of_nat n)); start] 2
     = Some (OutOfBounds Buffer).
Proof.
  intros Hn Hesc.
  pose proof (control_check_delta n Hn Hesc) as Hcheck.
  unfold advanced_decompress.
  split; rewrite decompress_loop_eq; change (0 <? 2)%nat with true; cbv iota;
    rewrite (decode_step_plain _ _ _ Hcheck); cbv zeta;
    change (MODE_DELTA =? MODE_RLE) with false;
    change (MODE_DELTA =? MODE_DELTA) with true; cbv iota;
    cbn [read_byte nth_error bind]; [|reflexivity].
  rewrite decompress_loop_eq. reflexivity.
Qed.

Lemma truncated_delta_stream_reads_buffer_witness :
  advanced_decompress [0xC3; 0x05; 0x11] 2 = Some (Returned (delta_expand 5 1 3))
  /\ advanced_decompress [0xC3; 0x05] 2 = Some (OutOfBounds Buffer).
Proof.
  apply (truncated_delta_stream_reads_buffer 3 0x05 0x11 []).
  - lia.
  - reflexivity.
Defined.

(** C6 as stated fails: on a stream that starts with the reserved code
    [0xF1] the decoder returns 49 bytes, the Delta sequence of length 49 (the
    low six bits of [0xF1]) given by the two bytes that follow. *)
Lemma reserved_code_returns_output :
  advanced_decompress [EXT_INCR_SEQ; 0x05; 0x11] 3
  = Some (Returned (map (fun i => 5 + Z.of_nat i) (seq 0 49))).
Proof. vm_compute; reflexivity. Qed.

(** C6, as the code has it.  The decoder never compares a control byte with
    [EXT_INCR_SEQ]: at any cursor, a control byte [0xF1] followed by two bytes
    is decoded by its mode and length bits, as a Delta token of length 49,
    and the round completes without an error. *)
Theorem reserved_code_is_delta_49 (pre : list Z) (start d : Z) (rest : list Z) :
  decode_step (pre ++ EXT_INCR_SEQ :: start :: d :: rest) (length pre)
  = Returned ((length pre + 3)%nat, delta_expand start (d - 16) 49).
Proof.
  rewrite <- (Nat.add_0_r (length pre)) at 1.
  rewrite decode_step_shift.
  change EXT_INCR_SEQ with (Z.lor MODE_DELTA (u8 (Z.of_nat 49))).
  rewrite decode_step_plain by reflexivity.
  reflexivity.
Qed.

(** The encoder does write the control byte [0xF1]: a delta sequence of
    length 49. *)
Lemma reserved_code_emitted :
  advanced_compress (repeat 5 49) = Some [EXT_INCR_SEQ; 0x05; 0x10].
Proof. vm_compute; reflexivity. Qed.

(** C7 as stated fails: on a common-value escape with palette index 8 the
    decoder performs the table lookup, outside the 8 entries of
    [common_values]; no check comes before it. *)
Lemma palette_index_unchecked :
  advanced_decompress [EXT_COMMON_VAL; 0x38] 2 = Some (OutOfBounds Palette).
Proof. vm_compute; reflexivity. Qed.

(** C7, as the code has it.  At any cursor, a common-value escape with info
    byte [info] is decoded by indexing the palette with the low four bits of
    [info]: for an index below 8 the round writes [info >> 4] copies of the
    palette entry; for an index in 8..15 the lookup is outside the table.
    There is no check of the index and no error result. *)
Theorem common_value_lookup (pre : list Z) (info : Z) (rest : list Z) :
  decode_step (pre ++ EXT_COMMON_VAL :: info :: rest) (length pre)
  = if Z.land info 0x0F <? 8
    then Returned ((length pre + 2)%nat,
                   repeat (nth (Z.to_nat (Z.land info 0x0F)) common_values 0)
                          (Z.to_nat (Z.shiftr info 4)))
    else OutOfBounds Palette.
Proof.
  rewrite <- (Nat.add_0_r (length pre)) at 1.
  rewrite decode_step_shift.
  unfold decode_step.
  change (read_byte (EXT_COMMON_VAL :: info :: rest) 0)
    with (Returned (A := Z) EXT_COMMON_VAL).
  cbn [bind].
  change (EXT_COMMON_VAL =? EXT_ZERO_RUN) with false.
  change (EXT_COMMON_VAL =? EXT_PATTERN) with false.
  change (EXT_COMMON_VAL =? EXT_COMMON_VAL) with true. cbv iota.
  cbn [read_byte nth_error bind].
  assert (Hidx : 0 <= Z.land info 0x0F) by (apply Z.land_nonneg; right; lia).
  destruct (Z.land info 0x0F <? 8) eqn:Hlt; to_prop.
  - rewrite read_palette_lt by lia. reflexivity.
  - unfold read_palette.
    replace (nth_error common_values (Z.to_nat (Z.land info 0x0F))) with (@None Z)
      by (symmetry; apply nth_error_None; cbn [common_values length]; lia).
    reflexivity.
Qed.

(** ** The baseline run-length codec *)

Lemma rle_run_scan_bounds data read_pos :
  (read_pos < length data)%nat ->
  (1 <= rle_run_scan data read_pos <= 127)%nat
  /\ (read_pos + rle_run_scan data read_pos <= length data)%nat.
Proof.
  intros Hpos; unfold rle_run_scan, MAX_RUN_LENGTH.
  apply (count_while_inv
           (fun k => (1 <= k <= 127)%nat /\ (read_pos + k <= length data)%nat)).
  - intros k Hk Hc; to_prop; lia.
  - lia.
Qed.

Lemma rle_run_scan_same data read_pos k :
  (1 <= k < rle_run_scan data read_pos)%nat ->
  byte_at data (read_pos + k) = byte_at data read_pos.
Proof.
  intros Hk; unfold rle_run_scan in Hk.
  apply count_while_true in Hk; to_prop; assumption.
Qed.

(** The look-ahead of the literal loop is the run scan. *)
Lemma rle_ahead_scan_eq data read_pos :
  rle_ahead_scan data read_pos = rle_run_scan data read_pos.
Proof.
  unfold rle_ahead_scan, rle_run_scan.
  destruct (read_pos + 1 <? length data)%nat eqn:E; [reflexivity|].
  unfold MAX_RUN_LENGTH; cbn [count_while].
  now rewrite E.
Qed.

Lemma rle_literal_scan_S r data read_pos literal_count :
  rle_literal_scan (S r) data read_pos literal_count =
  if (read_pos <? length data)%nat && (literal_count <? MAX_RUN_LENGTH)%nat then
    if (MIN_RUN_LENGTH <=? rle_ahead_scan data read_pos)%nat
    then (read_pos, literal_count)
    else rle_literal_scan r data (read_pos + rle_ahead_scan data read_pos)
           (literal_count + rle_ahead_scan data read_pos)
  else (read_pos, literal_count).
Proof. reflexivity. Qed.

(** The literal loop moves [read_pos] and [literal_count] together, stays
    inside the input and below the cap. *)
Lemma rle_literal_scan_bounds rounds data :
  forall read_pos literal_count,
    (read_pos <= length data)%nat -> (literal_count <= 127)%nat ->
    let r := rle_literal_scan rounds data read_pos literal_count in
    (fst r + literal_count = read_pos + snd r)%nat
    /\ (literal_count <= snd r <= 127)%nat
    /\ (fst r <= length data)%nat.
Proof.
  induction rounds as [|r IH]; intros read_pos literal_count Hpos Hcount;
    [cbn; lia|].
  rewrite rle_literal_scan_S.
  destruct ((read_pos <? length data)%nat && (literal_count <? MAX_RUN_LENGTH)%nat)
    eqn:Hc; [|cbn; lia].
  unfold MAX_RUN_LENGTH, MIN_RUN_LENGTH in *. to_prop.
  rewrite rle_ahead_scan_eq.
  destruct (rle_run_scan_bounds data read_pos) as [Hr1 Hr2]; [assumption|].
  destruct (2 <=? rle_run_scan data read_pos)%nat eqn:Hrun; [cbn; lia|].
  to_prop.
  specialize (IH (read_pos + rle_run_scan data read_pos)%nat
                 (literal_count + rle_run_scan data read_pos)%nat
                 ltac:(lia) ltac:(lia)).
  cbv zeta in IH. lia.
Qed.

Lemma rle_literal_scan_first data read_pos :
  (read_pos < length data)%nat ->
  (rle_run_scan data read_pos < 2)%nat ->
  (1 <= snd (rle_literal_scan MAX_RUN_LENGTH data read_pos 0))%nat.
Proof.
  intros Hpos Hrun.
  unfold MAX_RUN_LENGTH at 1. rewrite rle_literal_scan_S.
  replace (read_pos <? length data)%nat with true by (symmetry; apply Nat.ltb_lt; lia).
  rewrite rle_ahead_scan_eq.
  replace (MIN_RUN_LENGTH <=? rle_run_scan data read_pos)%nat with false
    by (symmetry; apply Nat.leb_gt; unfold MIN_RUN_LENGTH; lia).
  cbn [andb]. change (0 <? MAX_RUN_LENGTH)%nat with true. cbv iota.
  destruct (rle_run_scan_bounds data read_pos Hpos) as [Hr1 Hr2].
  pose proof (rle_literal_scan_bounds 126 data
                (read_pos + rle_run_scan data read_pos)%nat
                (0 + rle_run_scan data read_pos)%nat ltac:(lia) ltac:(lia)) as H.
  cbv zeta in H. lia.
Qed.

Lemma rle_run_control n :
  (n < 128)%nat -> rle_run_control_check n = true.
Proof. apply (below_forallb rle_run_control_check 128). now vm_compute. Qed.

Lemma rle_literal_control n :
  (n < 128)%nat -> rle_literal_control_check n = true.
Proof. apply (below_forallb rle_literal_control_check 128). now vm_compute. Qed.

Lemma ltb_shift n a b : (n + a <? n + b)%nat = (a <? b)%nat.
Proof.
  destruct (a <? b)%nat eqn:E; to_prop;
    [apply Nat.ltb_lt | apply Nat.ltb_ge]; lia.
Qed.

Lemma rle_copy_shift literal_count pre l size :
  forall k,
    rle_copy literal_count (pre ++ l) (length pre + size) (length pre + k)
    = shift_cursor (length pre) (rle_copy literal_count l size k).
Proof.
  induction literal_count as [|n IH]; intros k; cbn [rle_copy]; [reflexivity|].
  rewrite ltb_shift.
  destruct (k <? size)%nat; [|reflexivity].
  rewrite read_byte_shift.
  destruct (read_byte l k) as [b|o]; cbn [bind]; [|reflexivity].
  rewrite plus_n_Sm, IH.
  destruct (rle_copy n l size (S k)) as [[q bytes]|o]; reflexivity.
Qed.

Lemma rle_decode_step_shift pre l size k :
  rle_decode_step (pre ++ l) (length pre + size) (length pre + k)
  = shift_cursor (length pre) (rle_decode_step l size k).
Proof.
  unfold rle_decode_step.
  rewrite read_byte_shift.
  destruct (read_byte l k) as [control_byte|o]; cbn [bind]; [|reflexivity].
  rewrite !plus_n_Sm, rle_copy_shift, ltb_shift, read_byte_shift.
  destruct (negb (Z.land control_byte RLE_FLAG =? 0)); [|reflexivity].
  destruct (S k <? size)%nat; [|reflexivity].
  destruct (read_byte l (S k)); cbn [bind shift_cursor]; [|reflexivity].
  now rewrite <- plus_n_Sm.
Qed.

Lemma rle_decompress_loop_eq rounds data compressed_size read_pos out :
  rle_decompress_loop rounds data compressed_size read_pos out =
  if (read_pos <? compressed_size)%nat then
    match rounds with
    | O => None
    | S r =>
        match rle_decode_step data compressed_size read_pos with
        | Returned (read_pos', bytes) =>
            rle_decompress_loop r data compressed_size read_pos' (out ++ bytes)
        | OutOfBounds o => Some (OutOfBounds o)
        end
    end
  else Some (Returned out).
Proof. destruct rounds; reflexivity. Qed.

Lemma rle_decompress_loop_shift rounds pre l size :
  forall k out,
    rle_decompress_loop rounds (pre ++ l) (length pre + size) (length pre + k) out
    = rle_decompress_loop rounds l size k out.
Proof.
  induction rounds as [|r IH]; intros k out;
    rewrite (rle_decompress_loop_eq _ (pre ++ l)), (rle_decompress_loop_eq _ l),
      ltb_shift; [reflexivity|].
  destruct (k <? size)%nat; [|reflexivity].
  rewrite rle_decode_step_shift.
  destruct (rle_decode_step l size k) as [[q bytes]|o]; cbn [shift_cursor];
    [|reflexivity].
  apply IH.
Qed.

(** The literal loop of the decoder on a literal's bytes that lie inside the
    stream. *)
Lemma rle_copy_exact bytes :
  forall post size,
    (length bytes <= size)%nat ->
    rle_copy (length bytes) (bytes ++ post) size 0 = Returned (length bytes, bytes).
Proof.
  induction bytes as [|b rest IH]; intros post size Hsize; cbn [length rle_copy app];
    [reflexivity|].
  cbn [length] in Hsize.
  replace (0 <? size)%nat with true by (symmetry; apply Nat.ltb_lt; lia).
  change (read_byte (b :: rest ++ post) 0) with (Returned (A := Z) b). cbn [bind].
  replace size with (length [b] + (size - 1))%nat at 1 by (cbn [length]; lia).
  change (rle_copy (length rest) (b :: rest ++ post) (length [b] + (size - 1)) 1)
    with (rle_copy (length rest) ([b] ++ (rest ++ post)) (length [b] + (size - 1))
            (length [b] + 0)).
  rewrite rle_copy_shift, IH by lia.
  reflexivity.
Qed.

(** One round of the baseline encoder: it advances inside the input, writes
    at most twice what it covers, and the baseline decoder rebuilds the
    covered bytes from what it wrote. *)
Lemma rle_compress_step_spec data read_pos :
  (read_pos < length data)%nat ->
  let bytes := fst (rle_compress_step data read_pos) in
  let read_pos' := snd (rle_compress_step data read_pos) in
  (read_pos < read_pos' <= length data)%nat
  /\ (1 <= length bytes <= 2 * (read_pos' - read_pos))%nat
  /\ forall post size,
       (length bytes <= size)%nat ->
       rle_decode_step (bytes ++ post) size 0
       = Returned (length bytes, slice data read_pos (read_pos' - read_pos)).
Proof.
  intros Hpos; unfold rle_compress_step.
  destruct (rle_run_scan_bounds data read_pos Hpos) as [Hr1 Hr2].
  destruct (MIN_RUN_LENGTH <=? rle_run_scan data read_pos)%nat eqn:Hrun;
    unfold MIN_RUN_LENGTH in Hrun; to_prop.
  - cbn [fst snd length]. split; [lia|]. split; [lia|].
    intros post size Hsize.
    pose proof (rle_run_control (rle_run_scan data read_pos) ltac:(lia)) as Hc.
    unfold rle_run_control_check in Hc. cbv zeta in Hc.
    apply andb_true_iff in Hc; destruct Hc as [Hflag Hlen].
    apply Nat.eqb_eq in Hlen.
    unfold rle_decode_step. cbn [app].
    set (control := Z.lor RLE_FLAG (u8 (Z.of_nat (rle_run_scan data read_pos)))) in *.
    change (read_byte (control :: byte_at data read_pos :: post) 0)
      with (Returned (A := Z) control).
    cbn [bind]. rewrite Hflag, Hlen.
    replace (1 <? size)%nat with true by (symmetry; apply Nat.ltb_lt; lia).
    cbn [read_byte nth_error bind].
    replace (read_pos + rle_run_scan data read_pos - read_pos)%nat
      with (rle_run_scan data read_pos) by lia.
    rewrite (slice_const data read_pos _ (byte_at data read_pos)); [reflexivity|lia|].
    intros k Hk. destruct k as [|k].
    + now rewrite Nat.add_0_r.
    + apply rle_run_scan_same; lia.
  - destruct (rle_literal_scan MAX_RUN_LENGTH data read_pos 0)
      as [read_pos' literal_count] eqn:Hscan.
    pose proof (rle_literal_scan_bounds MAX_RUN_LENGTH data read_pos 0
                  ltac:(lia) ltac:(lia)) as Hb.
    pose proof (rle_literal_scan_first data read_pos Hpos ltac:(lia)) as Hfirst.
    cbv zeta in Hb. rewrite Hscan in Hb, Hfirst. cbn [fst snd] in Hb, Hfirst.
    cbn [fst snd length].
    replace (read_pos' - read_pos)%nat with literal_count by lia.
    rewrite slice_length by lia.
    split; [lia|]. split; [lia|].
    intros post size Hsize.
    pose proof (rle_literal_control literal_count ltac:(lia)) as Hc.
    unfold rle_literal_control_check in Hc. cbv zeta in Hc.
    apply andb_true_iff in Hc; destruct Hc as [Hflag Hlen].
    apply Nat.eqb_eq in Hlen.
    unfold rle_decode_step. cbn [app].
    set (control := u8 (Z.of_nat literal_count)) in *.
    change (read_byte (control :: slice data read_pos literal_count ++ post) 0)
      with (Returned (A := Z) control).
    cbn [bind]. rewrite Hflag, Hlen. cbn [negb].
    set (bytes := slice data read_pos literal_count).
    assert (Hbl : length bytes = literal_count) by (apply slice_length; lia).
    replace size with (length [control] + (size - 1))%nat by (cbn [length]; lia).
    change (rle_copy literal_count (control :: bytes ++ post)
              (length [control] + (size - 1)) 1)
      with (rle_copy literal_count ([control] ++ (bytes ++ post))
              (length [control] + (size - 1)) (length [control] + 0)).
    rewrite rle_copy_shift. rewrite <- Hbl at 1.
    rewrite rle_copy_exact by lia.
    cbn [shift_cursor length]. rewrite Hbl. reflexivity.
Qed.

Lemma rle_compress_loop_eq rounds data read_pos :
  rle_compress_loop rounds data read_pos =
  if (read_pos <? length data)%nat then
    match rounds with
    | O => None
    | S r =>
        option_map (app (fst (rle_compress_step data read_pos)))
          (rle_compress_loop r data (snd (rle_compress_step data read_pos)))
    end
  else Some [].
Proof.
  destruct rounds; cbn [rle_compress_loop]; [reflexivity|].
  now destruct (rle_compress_step data read_pos).
Qed.

(** The baseline encoder from [read_pos] on: it returns, writes at most
    twice the bytes that remain, and the baseline decoder turns its output
    back into these bytes. *)
Lemma rle_compress_loop_spec rounds data :
  forall read_pos,
    (read_pos <= length data)%nat ->
    (length data - read_pos <= rounds)%nat ->
    exists enc,
      rle_compress_loop rounds data read_pos = Some enc
      /\ (length enc <= 2 * (length data - read_pos))%nat
      /\ forall post out rounds',
           (length enc <= rounds')%nat ->
           rle_decompress_loop rounds' (enc ++ post) (length enc) 0 out
           = Some (Returned (out ++ skipn read_pos data)).
Proof.
  induction rounds as [|r IH]; intros read_pos Hle Hrounds;
    rewrite rle_compress_loop_eq;
    destruct (read_pos <? length data)%nat eqn:Hpos; to_prop; try lia.
  - exists []. split; [reflexivity|]. split; [cbn; lia|].
    intros post out rounds' _. rewrite rle_decompress_loop_eq.
    cbn [length]. change (0 <? 0)%nat with false. cbv iota.
    now rewrite skipn_all2, app_nil_r.
  - destruct (rle_compress_step_spec data read_pos Hpos) as (Hadv & Hlen & Hdec).
    cbv zeta in Hadv, Hlen, Hdec.
    set (bytes := fst (rle_compress_step data read_pos)) in *.
    set (read_pos' := snd (rle_compress_step data read_pos)) in *.
    destruct (IH read_pos' ltac:(lia) ltac:(lia)) as (enc' & -> & Hsize & Hrt).
    exists (bytes ++ enc'). split; [reflexivity|].
    rewrite length_app. split; [lia|].
    intros post out rounds' Hrounds'.
    rewrite rle_decompress_loop_eq.
    replace (0 <? length bytes + length enc')%nat with true
      by (symmetry; apply Nat.ltb_lt; lia).
    destruct rounds' as [|r']; [lia|].
    rewrite <- app_assoc, Hdec by lia.
    rewrite <- (Nat.add_0_r (length bytes)) at 2.
    rewrite rle_decompress_loop_shift, Hrt by lia.
    rewrite <- app_assoc.
    rewrite (skipn_slice data read_pos (read_pos' - read_pos)).
    now replace (read_pos + (read_pos' - read_pos))%nat with read_pos' by lia.
  - exists []. split; [reflexivity|]. split; [cbn; lia|].
    intros post out rounds' _. rewrite rle_decompress_loop_eq.
    cbn [length]. change (0 <? 0)%nat with false. cbv iota.
    now rewrite skipn_all2, app_nil_r.
Qed.

(** Round trip of the baseline codec: on every buffer the encoder returns a
    stream, and the decoder, run on that stream whatever follows it in its
    buffer, returns the input exactly.  No condition on the byte values. *)
Theorem simple_rle_round_trip (data tail : list Z) :
  exists enc,
    simple_rle_compress data = Some enc
    /\ simple_rle_decompress (enc ++ tail) (length enc) = Some (Returned data).
Proof.
  destruct (rle_compress_loop_spec (length data) data 0 ltac:(lia) ltac:(lia))
    as (enc & Henc & _ & Hrt).
  exists enc. split; [exact Henc|].
  unfold simple_rle_decompress.
  now rewrite Hrt.
Qed.

(** The output of the baseline encoder fits the [2 * data_size] bytes of
    its temporary buffer. *)
Theorem simple_rle_size_bound (data : list Z) :
  exists enc,
    simple_rle_compress data = Some enc
    /\ (length enc <= 2 * length data)%nat.
Proof.
  destruct (rle_compress_loop_spec (length data) data 0 ltac:(lia) ltac:(lia))
    as (enc & Henc & Hsize & _).
  exists enc. split; [exact Henc|lia].
Qed.

Lemma read_byte_inside data n k :
  (k < n)%nat -> (n <= length data)%nat ->
  exists b, read_byte data k = Returned b
            /\ read_byte (firstn n data) k = Returned b.
Proof.
  intros Hk Hn. unfold read_byte.
  rewrite nth_error_firstn.
  replace (k <? n)%nat with true by (symmetry; apply Nat.ltb_lt; lia).
  destruct (nth_error data k) as [b|] eqn:E.
  - exists b. split; reflexivity.
  - apply nth_error_None in E. lia.
Qed.

(** The literal loop of the baseline decoder stops at the end of the
    stream: it reads inside the stream only. *)
Lemma rle_copy_inside literal_count data n :
  (n <= length data)%nat ->
  forall k, (k <= n)%nat ->
    exists q bytes,
      rle_copy literal_count data n k = Returned (q, bytes)
      /\ rle_copy literal_count (firstn n data) n k = Returned (q, bytes)
      /\ (k <= q <= n)%nat /\ length bytes = (q - k)%nat.
Proof.
  intros Hn. induction literal_count as [|c IH]; intros k Hk; cbn [rle_copy].
  - exists k, []. repeat split; (lia || (cbn; lia)).
  - destruct (k <? n)%nat eqn:Hlt; to_prop.
    + destruct (read_byte_inside data n k Hlt Hn) as (b & -> & ->). cbn [bind].
      destruct (IH (S k) ltac:(lia)) as (q & bytes & -> & -> & Hq & Hlen).
      cbn [bind fst snd]. exists q, (b :: bytes).
      repeat split; try lia. cbn [length]. lia.
    + exists k, []. repeat split; (lia || (cbn; lia)).
Qed.

Lemma rle_decode_step_inside data n k :
  (k < n)%nat -> (n <= length data)%nat ->
  exists q bytes,
    rle_decode_step data n k = Returned (q, bytes)
    /\ rle_decode_step (firstn n data) n k = Returned (q, bytes)
    /\ (k < q <= n)%nat /\ (length bytes <= 127 * (q - k))%nat.
Proof.
  intros Hk Hn. unfold rle_decode_step.
  destruct (read_byte_inside data n k Hk Hn) as (control_byte & -> & ->). cbn [bind].
  destruct (negb (Z.land control_byte RLE_FLAG =? 0)).
  - destruct (S k <? n)%nat eqn:Hlt; to_prop.
    + destruct (read_byte_inside data n (S k) Hlt Hn) as (value & -> & ->). cbn [bind].
      exists (S (S k)), (repeat value (Z.to_nat (Z.land control_byte 0x7F))).
      repeat split; try lia.
      rewrite repeat_length.
      assert (0 <= Z.land control_byte 0x7F <= 0x7F).
      { split; [apply Z.land_nonneg; right; lia|].
        rewrite land_127. pose proof (Z.mod_pos_bound control_byte 128). lia. }
      lia.
    + exists (S k), []. repeat split; try lia. cbn; lia.
  - destruct (rle_copy_inside (Z.to_nat control_byte) data n Hn (S k) ltac:(lia))
      as (q & bytes & -> & -> & Hq & Hlen).
    exists q, bytes. repeat split; lia.
Qed.

Lemma rle_decompress_loop_inside rounds data n :
  (n <= length data)%nat ->
  forall k out,
    (n - k <= rounds)%nat ->
    exists out',
      rle_decompress_loop rounds data n k out = Some (Returned out')
      /\ rle_decompress_loop rounds (firstn n data) n k out = Some (Returned out')
      /\ (length out' <= length out + 127 * (n - k))%nat.
Proof.
  intros Hn. induction rounds as [|r IH]; intros k out Hrounds;
    rewrite !rle_decompress_loop_eq;
    destruct (k <? n)%nat eqn:Hlt; to_prop; try lia;
    try (exists out; repeat split; lia).
  destruct (rle_decode_step_inside data n k Hlt Hn)
    as (q & bytes & -> & -> & Hq & Hlen).
  destruct (IH q (out ++ bytes) ltac:(lia)) as (out' & -> & -> & Hout).
  exists out'. repeat split.
  rewrite length_app in Hout. nia.
Qed.

(** The baseline decoder is safe on every stream, well formed or not: it
    returns, reads no byte at or after [compressed_size] (what follows the
    stream in the buffer does not change the result), and its output fits
    the [compressed_size * MAX_RUN_LENGTH] bytes it allocates. *)
Theorem simple_rle_decompress_safe (stream tail : list Z) :
  exists out,
    simple_rle_decompress (stream ++ tail) (length stream) = Some (Returned out)
    /\ simple_rle_decompress stream (length stream) = Some (Returned out)
    /\ (length out <= length stream * MAX_RUN_LENGTH)%nat.
Proof.
  unfold simple_rle_decompress.
  destruct (rle_decompress_loop_inside (length stream) (stream ++ tail) (length stream)
              ltac:(rewrite length_app; lia) 0%nat [] ltac:(lia))
    as (out & H1 & H2 & Hlen).
  exists out. split; [exact H1|].
  rewrite firstn_app, firstn_all, Nat.sub_diag in H2.
  cbn [firstn] in H2. rewrite app_nil_r in H2.
  split; [exact H2|].
  unfold MAX_RUN_LENGTH. cbn [length] in Hlen. lia.
Qed.

(** ** The advanced decoder on arbitrary buffers *)

Lemma read_byte_is_byte data k b :
  Forall is_byte data -> read_byte data k = Returned b -> is_byte b.
Proof.
  intros Hall. unfold read_byte.
  destruct (nth_error data k) as [x|] eqn:E; [|discriminate].
  intros H; injection H as <-.
  rewrite Forall_forall in Hall. eapply Hall, nth_error_In, E.
Qed.

Lemma land_63_bound x : (Z.to_nat (Z.land x LENGTH_MASK) <= 63)%nat.
Proof.
  unfold LENGTH_MASK. change 0x3F with (Z.ones 6).
  rewrite Z.land_ones by lia.
  pose proof (Z.mod_pos_bound x (2 ^ 6) ltac:(lia)). lia.
Qed.

Lemma land_15_bound x : (Z.to_nat (Z.land x 0x0F) <= 15)%nat.
Proof.
  change 0x0F with (Z.ones 4).
  rewrite Z.land_ones by lia.
  pose proof (Z.mod_pos_bound x (2 ^ 4) ltac:(lia)). lia.
Qed.

Lemma shiftr_4_bound x : is_byte x -> (Z.to_nat (Z.shiftr x 4) <= 15)%nat.
Proof.
  unfold is_byte; intros Hx.
  rewrite Z.shiftr_div_pow2 by lia.
  assert (x / 2 ^ 4 < 16) by (apply Z.div_lt_upper_bound; lia).
  lia.
Qed.

Lemma read_block_length data in_pos len bytes :
  read_block data in_pos len = Returned bytes -> (length bytes <= len)%nat.
Proof.
  unfold read_block.
  destruct (len =? 0)%nat; [intros H; injection H as <-; cbn; lia|].
  destruct (in_pos + len <=? length data)%nat; [|discriminate].
  intros H; injection H as <-. unfold slice. rewrite length_firstn. lia.
Qed.

Lemma pattern_copies_length repeat_count data in_pos pattern_len copies :
  pattern_copies repeat_count data in_pos pattern_len = Returned copies ->
  (length copies <= repeat_count * pattern_len)%nat.
Proof.
  revert copies; induction repeat_count as [|r IH]; intros copies;
    cbn [pattern_copies].
  - intros H; injection H as <-. cbn; lia.
  - destruct (read_block data in_pos pattern_len) as [unit|] eqn:Hunit;
      cbn [bind]; [|discriminate].
    destruct (pattern_copies r data in_pos pattern_len) as [rest|]; cbn [bind];
      [|discriminate].
    intros H; injection H as <-.
    apply read_block_length in Hunit. specialize (IH rest eq_refl).
    rewrite length_app. lia.
Qed.

Lemma nibble_pairs_length pairs data :
  forall k q bytes,
    nibble_pairs pairs data k = Returned (q, bytes) ->
    length bytes = (2 * pairs)%nat.
Proof.
  induction pairs as [|p IH]; intros k q bytes; cbn [nibble_pairs].
  - intros H; injection H as _ <-. reflexivity.
  - destruct (read_byte data k); cbn [bind]; [|discriminate].
    destruct (nibble_pairs p data (S k)) as [[q' bytes']|o] eqn:E; cbn [bind fst snd];
      [|discriminate].
    intros H; injection H as _ <-.
    apply IH in E. cbn [length]. lia.
Qed.

(** One round of the decoder on a buffer of bytes writes at most 255 bytes. *)
Lemma decode_step_length data k q bytes :
  Forall is_byte data ->
  decode_step data k = Returned (q, bytes) ->
  (length bytes <= 255)%nat.
Proof.
  intros Hall. unfold decode_step.
  destruct (read_byte data k) as [control|]; cbn [bind]; [|discriminate].
  pose proof (land_63_bound control) as Hlen.
  destruct (control =? EXT_ZERO_RUN).
  { destruct (read_byte data (S k)) as [count|] eqn:Hc; cbn [bind]; [|discriminate].
    intros H; injection H as _ <-.
    apply (read_byte_is_byte _ _ _ Hall) in Hc. unfold is_byte in Hc.
    rewrite repeat_length. lia. }
  destruct (control =? EXT_PATTERN).
  { destruct (read_byte data (S k)) as [info|] eqn:Hi; cbn [bind]; [|discriminate].
    destruct (pattern_copies _ data (S (S k)) _) as [copies|] eqn:Hp; cbn [bind];
      [|discriminate].
    intros H; injection H as _ <-.
    apply pattern_copies_length in Hp.
    apply (read_byte_is_byte _ _ _ Hall) in Hi.
    pose proof (shiftr_4_bound info Hi). pose proof (land_15_bound info). nia. }
  destruct (control =? EXT_COMMON_VAL).
  { destruct (read_byte data (S k)) as [info|] eqn:Hi; cbn [bind]; [|discriminate].
    destruct (read_palette _); cbn [bind]; [|discriminate].
    intros H; injection H as _ <-.
    apply (read_byte_is_byte _ _ _ Hall) in Hi.
    pose proof (shiftr_4_bound info Hi). rewrite repeat_length. lia. }
  destruct (Z.land control MODE_MASK =? MODE_RLE).
  { destruct (read_byte data (S k)); cbn [bind]; [|discriminate].
    intros H; injection H as _ <-. rewrite repeat_length. lia. }
  destruct (Z.land control MODE_MASK =? MODE_DELTA).
  { destruct (read_byte data (S k)); cbn [bind]; [|discriminate].
    destruct (read_byte data (S (S k))); cbn [bind]; [|discriminate].
    intros H; injection H as _ <-.
    unfold delta_expand. rewrite length_map, length_seq. lia. }
  destruct (Z.land control MODE_MASK =? MODE_NIBBLE).
  { set (len := Z.to_nat (Z.land control LENGTH_MASK)) in *.
    destruct (nibble_pairs (len / 2) data (S k)) as [[q' bytes']|] eqn:Hn;
      cbn [bind fst snd]; [|discriminate].
    apply nibble_pairs_length in Hn.
    pose proof (Nat.div_mod_eq len 2) as Hdiv.
    destruct (len mod 2 =? 0)%nat.
    - intros H; injection H as _ <-. lia.
    - destruct (read_byte data q'); cbn [bind]; [|discriminate].
      intros H; injection H as _ <-. rewrite length_app. cbn [length]. lia. }
  destruct (read_block data (S k) _) as [block|] eqn:Hb; cbn [bind]; [|discriminate].
  intros H; injection H as _ <-.
  apply read_block_length in Hb. lia.
Qed.

Lemma decompress_loop_length rounds data compressed_size :
  Forall is_byte data ->
  forall in_pos out out',
    decompress_loop rounds data compressed_size in_pos out = Some (Returned out') ->
    (length out' <= length out + 255 * (compressed_size - in_pos))%nat.
Proof.
  intros Hall. induction rounds as [|r IH]; intros in_pos out out';
    rewrite decompress_loop_eq;
    destruct (in_pos <? compressed_size)%nat eqn:Hpos; to_prop;
    try discriminate;
    try (intros H; injection H as <-; lia).
  destruct (decode_step data in_pos) as [[q bytes]|o] eqn:Hstep; [|discriminate].
  intros H. apply IH in H.
  pose proof (decode_step_advance _ _ _ _ Hstep).
  pose proof (decode_step_length _ _ _ _ Hall Hstep).
  rewrite length_app in H. lia.
Qed.

(** The advanced decoder terminates on every buffer of bytes and every
    stream size, well formed or not; whenever it completes, its output fits
    the [compressed_size * 256] bytes it allocates. *)
Theorem advanced_decompress_output_bound (data : list Z) (compressed_size : nat) :
  Forall is_byte data ->
  exists r,
    advanced_decompress data compressed_size = Some r
    /\ forall out, r = Returned out ->
         (length out <= 255 * compressed_size)%nat
         /\ (length out <= compressed_size * 256)%nat.
Proof.
  intros Hall.
  destruct (advanced_decompress_total data compressed_size) as [r Hr].
  exists r. split; [exact Hr|].
  intros out ->. unfold advanced_decompress in Hr.
  apply (decompress_loop_length _ _ _ Hall) in Hr.
  cbn [length] in Hr. lia.
Qed.

Lemma advanced_decompress_output_bound_witness :
  exists r,
    advanced_decompress [EXT_ZERO_RUN; 0xFF; EXT_ZERO_RUN; 0xFF] 4 = Some r
    /\ forall out, r = Returned out ->
         (length out <= 255 * 4)%nat /\ (length out <= 4 * 256)%nat.
Proof.
  apply (advanced_decompress_output_bound [EXT_ZERO_RUN; 0xFF; EXT_ZERO_RUN; 0xFF] 4).
  unfold is_byte. repeat (apply Forall_cons; [cbv; split; congruence|]).
  apply Forall_nil.
Defined.

(** ** More on the advanced encoder *)

Lemma compress_step_in_range data in_pos :
  fits_size_t data ->
  (in_pos < length data)%nat ->
  token_in_range (compress_step data in_pos).
Proof.
  intros Hfit Hpos; unfold compress_step.
  destruct ((byte_at data in_pos =? 0) && (3 <=? zero_run_scan data in_pos)%nat)
    eqn:Hzero.
  { to_prop. destruct (zero_run_scan_bounds data in_pos Hpos) as [Hz1 Hz2].
    cbn [token_in_range]; lia. }
  destruct (is_delta_sequence data in_pos) as [[is_delta delta] delta_length] eqn:Hdelta.
  destruct is_delta.
  { apply is_delta_sequence_true in Hdelta.
    destruct Hdelta as (_ & _ & Hrange & Hlen & _).
    cbn [token_in_range]; lia. }
  destruct (can_nibble_pack data in_pos) as [is_nibble nibble_length] eqn:Hnibble.
  destruct is_nibble.
  { unfold can_nibble_pack in Hnibble.
    pose proof (f_equal fst Hnibble) as Hok.
    pose proof (f_equal snd Hnibble) as Hlen.
    cbn [fst snd] in Hok, Hlen; clear Hnibble; to_prop.
    destruct (nibble_scan_bounds data in_pos) as [Hn1 Hn2]; [lia|].
    rewrite Hlen in *.
    cbn [token_in_range]. rewrite slice_length by assumption. lia. }
  rewrite (find_pattern_never data in_pos Hfit).
  change ((2 <=? pat_count Pattern_zero)%nat && (2 <=? pat_length Pattern_zero)%nat)
    with false; cbv iota.
  destruct (run_scan_bounds data in_pos Hpos) as [Hr1 Hr2].
  destruct (3 <=? run_scan data in_pos)%nat eqn:Hrun.
  { to_prop.
    destruct (common_index (byte_at data in_pos)) as [common_idx|] eqn:Hidx;
      [destruct (run_scan data in_pos <=? 15)%nat eqn:Hshort|];
      cbn [token_in_range]; to_prop; try lia.
    apply common_index_Some in Hidx. lia. }
  to_prop.
  assert (Hfirst : (1 <= literal_scan 63 data in_pos 0)%nat).
  { apply literal_scan_first; [assumption|lia|]. now rewrite Hdelta. }
  destruct (literal_scan_bounds 63 data in_pos 0) as [Hl1 Hl2]; [lia|lia|].
  cbn [token_in_range]. rewrite slice_length by lia. lia.
Qed.

Lemma tokens_from_in_range data in_pos toks :
  fits_size_t data ->
  tokens_from data in_pos toks -> Forall token_in_range toks.
Proof.
  intros Hfit. induction 1 as [in_pos Hend | in_pos rest Hpos Hrest IH].
  - constructor.
  - constructor; [now apply compress_step_in_range|assumption].
Qed.

(** No count is cut by its field: every token the encoder emits has its
    counts within the width of the field that carries them, and none is a
    pattern token, the only kind whose counts could exceed their fields. *)
Theorem emitted_tokens_in_range (data : list Z) (toks : list token) :
  fits_size_t data ->
  advanced_tokens data = Some toks ->
  Forall token_in_range toks.
Proof.
  intros Hfit Htoks.
  apply (tokens_from_in_range data 0); [assumption|].
  now apply compress_loop_tokens_from in Htoks.
Qed.

Lemma emitted_tokens_in_range_witness :
  Forall token_in_range
    [Literal [0x03; 0x74]; Delta 0x04 0 3; Literal [0x35; 0x35];
     Delta 0x64 0 4; ZeroRun 5; Literal [0x56; 0x45];
     Delta 0x56 0 3; Delta 0x09 0 3].
Proof.
  apply (emitted_tokens_in_range worked_vector).
  - unfold fits_size_t, SIZE_MODULUS. cbn [worked_vector length]. lia.
  - reflexivity.
Defined.

Lemma pack_nibbles_half values :
  (2 * length (pack_nibbles values) <= length values + 1)%nat.
Proof.
  enough (H : (2 * length (pack_nibbles values) <= length values + 1)%nat
              /\ forall v, (2 * length (pack_nibbles (v :: values))
                            <= length (v :: values) + 1)%nat) by apply H.
  induction values as [|a l [IH1 IH2]].
  - split; [|intros v]; cbn; lia.
  - split; [apply IH2|].
    intros v. cbn [pack_nibbles length] in *. lia.
Qed.

Lemma compress_step_PatternTok data in_pos p :
  compress_step data in_pos = PatternTok p ->
  (2 <= pat_count p)%nat /\ (2 <= pat_length p)%nat.
Proof.
  unfold compress_step.
  destruct ((byte_at data in_pos =? 0) && (3 <=? zero_run_scan data in_pos)%nat);
    [discriminate|].
  destruct (is_delta_sequence data in_pos) as [[is_delta delta] delta_length].
  destruct is_delta; [discriminate|].
  destruct (can_nibble_pack data in_pos) as [is_nibble nibble_length].
  destruct is_nibble; [discriminate|].
  destruct ((2 <=? pat_count (find_pattern data in_pos))%nat
            && (2 <=? pat_length (find_pattern data in_pos))%nat) eqn:Hpat.
  { intros H; injection H as <-. to_prop. auto. }
  destruct (3 <=? run_scan data in_pos)%nat; [|discriminate].
  destruct (common_index (byte_at data in_pos)) as [idx|]; [|discriminate].
  destruct (run_scan data in_pos <=? 15)%nat; discriminate.
Qed.

(** Only a literal token is longer than what it covers, by its control
    byte. *)
Lemma compress_step_cost data in_pos :
  (in_pos < length data)%nat ->
  (length (emit (compress_step data in_pos))
   <= coverage (compress_step data in_pos)
      + (if is_literal (compress_step data in_pos) then 1 else 0))%nat.
Proof.
  intros Hpos.
  destruct (compress_step_bounds data in_pos Hpos) as (Hmin & Hin & _).
  destruct (compress_step data in_pos) as [z | s d n | values | p | idx n | v n | bytes]
    eqn:Hstep;
    cbn [min_coverage coverage emit length is_literal] in *; try lia.
  - pose proof (pack_nibbles_half values). lia.
  - pose proof (firstn_le_length (pat_length p) (pat_bytes p)).
    apply compress_step_PatternTok in Hstep. nia.
Qed.

Lemma tokens_from_cost data in_pos toks :
  tokens_from data in_pos toks ->
  (length (flat_map emit toks)
   <= list_sum (map coverage toks) + length (filter is_literal toks))%nat.
Proof.
  induction 1 as [in_pos Hend | in_pos rest Hpos Hrest IH]; [cbn; lia|].
  pose proof (compress_step_cost data in_pos Hpos) as Hcost.
  cbn [flat_map map list_sum fold_right filter].
  change (fold_right Nat.add 0%nat (map coverage rest))
    with (list_sum (map coverage rest)).
  rewrite length_app.
  destruct (is_literal (compress_step data in_pos)); cbn [length]; lia.
Qed.

(** The encoded size exceeds the input size by at most one byte per literal
    token: every other token is no longer than the bytes it covers. *)
Theorem encoded_size_literal_overhead (data : list Z) :
  exists toks enc,
    advanced_tokens data = Some toks
    /\ advanced_compress data = Some enc
    /\ (length enc <= length data + length (filter is_literal toks))%nat.
Proof.
  destruct (advanced_compress_total data) as [toks Htoks].
  exists toks, (flat_map emit toks).
  split; [assumption|].
  split; [unfold advanced_compress; now rewrite Htoks|].
  pose proof (compress_loop_tokens_from _ _ _ _ Htoks) as Hfrom.
  destruct (tokens_from_bounds data 0 toks Hfrom ltac:(lia)) as (Hsum & _ & _).
  pose proof (tokens_from_cost data 0 toks Hfrom). lia.
Qed.

(** ** Literal tokens *)

Lemma ahead_scan_three data in_pos :
  (in_pos + 2 < length data)%nat ->
  byte_at data (in_pos + 1) = byte_at data in_pos ->
  byte_at data (in_pos + 2) = byte_at data in_pos ->
  (3 <= ahead_scan data in_pos)%nat.
Proof.
  intros Hlen H1 H2; unfold ahead_scan.
  replace (in_pos + 1 <? length data)%nat with true
    by (symmetry; apply Nat.ltb_lt; lia).
  apply (count_while_past _ (length data) 1 2); [lia|].
  intros j Hj.
  assert (Hcase : j = 1%nat \/ j = 2%nat) by lia.
  destruct Hcase as [-> | ->].
  - rewrite H1, Z.eqb_refl.
    replace (in_pos + 1 <? length data)%nat with true
      by (symmetry; apply Nat.ltb_lt; lia).
    reflexivity.
  - rewrite H2, Z.eqb_refl.
    replace (in_pos + 2 <? length data)%nat with true
      by (symmetry; apply Nat.ltb_lt; lia).
    reflexivity.
Qed.

(** Every position the literal loop steps over passed both tests. *)
Lemma literal_scan_clear rounds data :
  forall in_pos literal_count k,
    (k < literal_scan rounds data in_pos literal_count - literal_count)%nat ->
    (ahead_scan data (in_pos + k) < 3)%nat
    /\ fst (fst (is_delta_sequence data (in_pos + k))) = false.
Proof.
  induction rounds as [|r IH]; intros in_pos literal_count k;
    [cbn [literal_scan]; lia|].
  rewrite literal_scan_S.
  destruct ((in_pos <? length data)%nat && (literal_count <? 63)%nat); [|lia].
  destruct (3 <=? ahead_scan data in_pos)%nat eqn:Hahead; [lia|].
  destruct (fst (fst (is_delta_sequence data in_pos))) eqn:Hdelta; [lia|].
  to_prop. intros Hk.
  destruct k as [|k].
  - rewrite Nat.add_0_r. split; [lia|assumption].
  - replace (in_pos + S k)%nat with (S in_pos + k)%nat by lia.
    apply (IH (S in_pos) (S literal_count) k). lia.
Qed.

(** Why the literal loop stops. *)
Lemma literal_scan_stop rounds data :
  forall in_pos literal_count,
    (literal_count <= 63)%nat -> (63 - literal_count <= rounds)%nat ->
    (in_pos <= length data)%nat ->
    let n := literal_scan rounds data in_pos literal_count in
    let q := (in_pos + (n - literal_count))%nat in
    (length data <= q)%nat \/ n = 63%nat
    \/ (3 <= ahead_scan data q)%nat
    \/ fst (fst (is_delta_sequence data q)) = true.
Proof.
  induction rounds as [|r IH]; intros in_pos literal_count Hc Hrounds Hpos;
    cbv zeta.
  - cbn [literal_scan]. right; left; lia.
  - rewrite literal_scan_S.
    destruct ((in_pos <? length data)%nat && (literal_count <? 63)%nat) eqn:Hguard.
    + destruct (3 <=? ahead_scan data in_pos)%nat eqn:Hahead.
      { to_prop. rewrite Nat.sub_diag, Nat.add_0_r. auto. }
      destruct (fst (fst (is_delta_sequence data in_pos))) eqn:Hdelta.
      { rewrite Nat.sub_diag, Nat.add_0_r. auto. }
      to_prop.
      pose proof (literal_scan_bounds r data (S in_pos) (S literal_count)
                    ltac:(lia) ltac:(lia)) as [Hb _].
      specialize (IH (S in_pos) (S literal_count) ltac:(lia) ltac:(lia) ltac:(lia)).
      cbv zeta in IH.
      replace (in_pos + (literal_scan r data (S in_pos) (S literal_count)
                         - literal_count))%nat
        with (S in_pos + (literal_scan r data (S in_pos) (S literal_count)
                          - S literal_count))%nat by lia.
      exact IH.
    + rewrite Nat.sub_diag, Nat.add_0_r.
      apply andb_false_iff in Hguard. destruct Hguard as [Hg | Hg]; to_prop.
      * left; lia.
      * right; left; lia.
Qed.

Lemma compress_step_Literal data in_pos bytes :
  compress_step data in_pos = Literal bytes ->
  bytes = slice data in_pos (literal_scan 63 data in_pos 0).
Proof.
  unfold compress_step.
  destruct ((byte_at data in_pos =? 0) && (3 <=? zero_run_scan data in_pos)%nat);
    [discriminate|].
  destruct (is_delta_sequence data in_pos) as [[is_delta delta] delta_length].
  destruct is_delta; [discriminate|].
  destruct (can_nibble_pack data in_pos) as [is_nibble nibble_length].
  destruct is_nibble; [discriminate|].
  destruct ((2 <=? pat_count (find_pattern data in_pos))%nat
            && (2 <=? pat_length (find_pattern data in_pos))%nat); [discriminate|].
  destruct (3 <=? run_scan data in_pos)%nat.
  { destruct (common_index (byte_at data in_pos)) as [idx|]; [|discriminate].
    destruct (run_scan data in_pos <=? 15)%nat; discriminate. }
  intros H; injection H as <-. reflexivity.
Qed.

(** A literal token swallows no opportunity: at no position it covers do
    three equal bytes start or is a delta sequence accepted; and it ends at
    the end of the input, at 63 bytes, or where one of the two begins. *)
Theorem literal_token_boundaries (data : list Z) (in_pos : nat) (bytes : list Z) :
  (in_pos < length data)%nat ->
  compress_step data in_pos = Literal bytes ->
  (forall k, (k < length bytes)%nat ->
     ~ ((in_pos + k + 2 < length data)%nat
        /\ byte_at data (in_pos + k + 1) = byte_at data (in_pos + k)
        /\ byte_at data (in_pos + k + 2) = byte_at data (in_pos + k))
     /\ fst (fst (is_delta_sequence data (in_pos + k))) = false)
  /\ ((length data <= in_pos + length bytes)%nat
      \/ length bytes = 63%nat
      \/ (3 <= ahead_scan data (in_pos + length bytes))%nat
      \/ fst (fst (is_delta_sequence data (in_pos + length bytes))) = true).
Proof.
  intros Hpos Hstep.
  apply compress_step_Literal in Hstep.
  destruct (literal_scan_bounds 63 data in_pos 0) as [Hl1 Hl2]; [lia|lia|].
  assert (Hlen : length bytes = literal_scan 63 data in_pos 0)
    by (rewrite Hstep; apply slice_length; lia).
  split.
  - intros k Hk.
    destruct (literal_scan_clear 63 data in_pos 0 k ltac:(lia)) as [Hahead Hdelta].
    split; [|exact Hdelta].
    intros (Hin & H1 & H2).
    pose proof (ahead_scan_three data (in_pos + k)) as Hthree.
    rewrite <- !Nat.add_assoc in Hin, H1, H2.
    specialize (Hthree ltac:(lia)).
    rewrite <- !Nat.add_assoc in Hthree.
    specialize (Hthree H1 H2). lia.
  - pose proof (literal_scan_stop 63 data in_pos 0 ltac:(lia) ltac:(lia) ltac:(lia))
      as Hstop.
    cbv zeta in Hstop. rewrite Nat.sub_0_r, <- Hlen in Hstop. exact Hstop.
Qed.

Lemma literal_token_boundaries_witness :
  (forall k, (k < length [0x03; 0x74])%nat ->
     ~ ((0 + k + 2 < length worked_vector)%nat
        /\ byte_at worked_vector (0 + k + 1) = byte_at worked_vector (0 + k)
        /\ byte_at worked_vector (0 + k + 2) = byte_at worked_vector (0 + k))
     /\ fst (fst (is_delta_sequence worked_vector (0 + k))) = false)
  /\ ((length worked_vector <= 0 + length [0x03; 0x74])%nat
      \/ length [0x03; 0x74] = 63%nat
      \/ (3 <= ahead_scan worked_vector (0 + length [0x03; 0x74]))%nat
      \/ fst (fst (is_delta_sequence worked_vector (0 + length [0x03; 0x74]))) = true).
Proof.
  apply (literal_token_boundaries worked_vector 0 [0x03; 0x74]).
  - cbn [worked_vector length]. lia.
  - reflexivity.
Defined.

(** ** When the round trip holds *)

Lemma app_inj_length {A : Type} (l1 l1' l2 l2' : list A) :
  length l1 = length l1' -> l1 ++ l2 = l1' ++ l2' -> l1 = l1' /\ l2 = l2'.
Proof.
  revert l1'; induction l1 as [|a l IH]; intros [|a' l'] Hlen Heq;
    cbn [length] in Hlen; try discriminate.
  - split; [reflexivity|exact Heq].
  - cbn [app] in Heq. injection Heq as -> Heq.
    destruct (IH l' ltac:(lia) Heq) as [-> ->]. split; reflexivity.
Qed.

(** Every token of the encoder whose control byte is no escape code is
    decoded, to as many bytes as it covers. *)
Lemma compress_step_decodable data in_pos :
  fits_size_t data -> Forall is_byte data ->
  (in_pos < length data)%nat ->
  no_escape (compress_step data in_pos) ->
  decodable (compress_step data in_pos)
  /\ length (expand (compress_step data in_pos))
     = coverage (compress_step data in_pos).
Proof.
  intros Hfit Hbytes Hpos Hesc.
  pose proof (compress_step_in_range data in_pos Hfit Hpos) as Hrange.
  pose proof (compress_step_faithful data in_pos Hfit Hbytes Hpos) as Hfaith.
  destruct (compress_step_bounds data in_pos Hpos) as (_ & Hin & _).
  destruct (compress_step data in_pos) as [z | s d n | values | p | idx n | v n | bytes];
    try (destruct (Hfaith I) as [Hdec Hexp]; split; [exact Hdec|];
         rewrite Hexp; apply slice_length; exact Hin).
  cbn [no_escape token_in_range decodable expand coverage] in *.
  split; [repeat split; (assumption || lia)|].
  unfold delta_expand. now rewrite length_map, length_seq.
Qed.

Lemma tokens_from_decodable data in_pos toks :
  fits_size_t data -> Forall is_byte data ->
  tokens_from data in_pos toks ->
  Forall no_escape toks -> Forall decodable toks.
Proof.
  intros Hfit Hbytes.
  induction 1 as [in_pos Hend | in_pos rest Hpos Hrest IH]; intros Hesc.
  - constructor.
  - inversion Hesc as [|? ? Ht Hr]; subst.
    constructor; [|now apply IH].
    now apply compress_step_decodable.
Qed.

(** When the expansions of the tokens are the input, every Delta token has
    its first two bytes below 128. *)
Lemma tokens_from_expand_clean data in_pos toks :
  fits_size_t data -> Forall is_byte data ->
  tokens_from data in_pos toks ->
  Forall no_escape toks ->
  flat_map expand toks = skipn in_pos data ->
  Forall delta_clean toks.
Proof.
  intros Hfit Hbytes.
  induction 1 as [in_pos Hend | in_pos rest Hpos Hrest IH]; intros Hesc Hflat.
  - constructor.
  - inversion Hesc as [|? ? Ht Hr]; subst.
    destruct (compress_step_decodable data in_pos Hfit Hbytes Hpos Ht) as [_ Hlen].
    destruct (compress_step_bounds data in_pos Hpos) as (_ & Hin & _).
    cbn [flat_map] in Hflat.
    rewrite (skipn_slice data in_pos (coverage (compress_step data in_pos))) in Hflat.
    apply app_inj_length in Hflat; [|now rewrite slice_length].
    destruct Hflat as [Hexp Hrest_eq].
    constructor; [|now apply IH].
    destruct (compress_step data in_pos) as [| start delta n | | | | |] eqn:Hstep;
      try exact I.
    apply compress_step_Delta in Hstep. destruct Hstep as [-> Hdelta].
    apply is_delta_sequence_true in Hdelta.
    destruct Hdelta as (Hsize & Hd & _ & Hn & _ & _).
    cbn [expand coverage no_escape delta_clean] in *.
    assert (H0 : nth 0 (delta_expand (byte_at data in_pos) delta n) 0
                 = byte_at data in_pos).
    { rewrite Hexp, slice_nth by lia. now rewrite Nat.add_0_r. }
    assert (H1 : nth 1 (delta_expand (byte_at data in_pos) delta n) 0
                 = byte_at data (in_pos + 1)).
    { rewrite Hexp, slice_nth by lia. reflexivity. }
    unfold delta_expand in H0, H1.
    rewrite (nth_indep _ 0 (delta_value (byte_at data in_pos) delta 0)) in H0
      by (rewrite length_map, length_seq; lia).
    rewrite (nth_indep _ 0 (delta_value (byte_at data in_pos) delta 0)) in H1
      by (rewrite length_map, length_seq; lia).
    rewrite map_nth, seq_nth, delta_value_mod in H0 by lia.
    rewrite map_nth, seq_nth, delta_value_mod in H1 by lia.
    cbn [Nat.add] in H0, H1.
    pose proof (Z.mod_pos_bound (byte_at data in_pos + Z.of_nat 0 * delta) 128
                  ltac:(lia)) as B0.
    pose proof (Z.mod_pos_bound (byte_at data in_pos + Z.of_nat 1 * delta) 128
                  ltac:(lia)) as B1.
    rewrite H0 in B0. rewrite H1 in B1.
    split; [lia|]. split; [lia|assumption].
Qed.

(** Among the inputs none of whose Delta tokens has an escape length, the
    round trip holds exactly for those whose Delta tokens all start with two
    bytes below 128: the Delta strategy is the only lossy one, and it loses
    exactly the values it reduces modulo 128. *)
Theorem round_trip_iff_delta_clean (data tail : list Z) (toks : list token) :
  fits_size_t data -> Forall is_byte data ->
  advanced_tokens data = Some toks ->
  Forall no_escape toks ->
  (advanced_decompress (flat_map emit toks ++ tail) (length (flat_map emit toks))
   = Some (Returned data))
  <-> Forall delta_clean toks.
Proof.
  intros Hfit Hbytes Htoks Hesc.
  split; [|now apply round_trip_clean].
  intros Hrt.
  pose proof (compress_loop_tokens_from _ _ _ _ Htoks) as Hfrom.
  pose proof (tokens_from_decodable data 0 toks Hfit Hbytes Hfrom Hesc) as Hdec.
  unfold advanced_decompress in Hrt.
  rewrite decompress_loop_tokens in Hrt; [|assumption|apply flat_map_emit_length].
  injection Hrt as Hflat. cbn [app] in Hflat.
  now apply (tokens_from_expand_clean data 0 toks).
Qed.

(** [200 201 74] is an accepted delta sequence (201 + 1 is 74 modulo 128)
    that starts above 127: it does not survive the round trip. *)
Lemma round_trip_iff_delta_clean_witness :
  (advanced_decompress (flat_map emit [Delta 200 1 3] ++ []) 
     (length (flat_map emit [Delta 200 1 3]))
   = Some (Returned [200; 201; 74]))
  <-> Forall delta_clean [Delta 200 1 3].
Proof.
  apply (round_trip_iff_delta_clean [200; 201; 74] [] [Delta 200 1 3]).
  - unfold fits_size_t, SIZE_MODULUS. cbn [length]. lia.
  - unfold is_byte. repeat (apply Forall_cons; [lia|]). apply Forall_nil.
  - reflexivity.
  - repeat constructor.
Defined.

(** Round trip over the restricted alphabet, where it holds: for every
    buffer of values 0..127 none of whose Delta tokens has one of the lengths
    32, 48 and 50 (at which the Delta control byte is an escape code), the
    decoder returns the input. *)
Theorem restricted_alphabet_round_trip (data tail : list Z) (toks : list token) :
  Forall (fun b => 0 <= b < 128) data ->
  fits_size_t data ->
  advanced_tokens data = Some toks ->
  Forall no_escape toks ->
  exists enc,
    advanced_compress data = Some enc
    /\ advanced_decompress (enc ++ tail) (length enc) = Some (Returned data).
Proof.
  intros Hlow Hfit Htoks Hesc.
  exists (flat_map emit toks).
  split; [unfold advanced_compress; now rewrite Htoks|].
  now apply round_trip_restricted.
Qed.

Lemma restricted_alphabet_round_trip_witness :
  exists enc,
    advanced_compress worked_vector = Some enc
    /\ advanced_decompress (enc ++ []) (length enc) = Some (Returned worked_vector).
Proof.
  apply (restricted_alphabet_round_trip worked_vector []
           [Literal [0x03; 0x74]; Delta 0x04 0 3; Literal [0x35; 0x35];
            Delta 0x64 0 4; ZeroRun 5; Literal [0x56; 0x45];
            Delta 0x56 0 3; Delta 0x09 0 3]).
  - unfold worked_vector. repeat (apply Forall_cons; [lia|]). apply Forall_nil.
  - unfold fits_size_t, SIZE_MODULUS. cbn [worked_vector length]. lia.
  - reflexivity.
  - repeat constructor.
Defined.

(** The pattern branch is dead: on a buffer whose length is a [size_t],
    [find_pattern] returns its initial candidate (length 0, count 0) at
    every cursor, because the score of that candidate is [0 - 2] in
    [size_t]; so the encoder emits no pattern token. *)
Theorem pattern_branch_is_dead (data : list Z) :
  fits_size_t data ->
  (forall start, find_pattern data start = Pattern_zero)
  /\ (forall toks p, advanced_tokens data = Some toks -> ~ In (PatternTok p) toks).
Proof.
  intros Hfit. split.
  - intros start. now apply find_pattern_never.
  - intros toks p Htoks Hin.
    apply compress_loop_tokens_from in Htoks.
    pose proof (tokens_from_in_range data 0 toks Hfit Htoks) as Hrange.
    rewrite Forall_forall in Hrange. exact (Hrange _ Hin).
Qed.

Lemma pattern_branch_is_dead_witness :
  (forall start, find_pattern pattern_input start = Pattern_zero)
  /\ (forall toks p,
        advanced_tokens pattern_input = Some toks -> ~ In (PatternTok p) toks).
Proof.
  apply (pattern_branch_is_dead pattern_input).
  unfold fits_size_t, SIZE_MODULUS.
  change (length pattern_input) with 20%nat. lia.
Defined.

(** Streams can be chained: the decoder, run on the encodings of two inputs
    put one after the other, returns the two inputs one after the other
    (for inputs whose Delta tokens are clean). *)
Theorem streams_concatenate (x y tail : list Z) (tx ty : list token) :
  fits_size_t x -> Forall is_byte x ->
  fits_size_t y -> Forall is_byte y ->
  advanced_tokens x = Some tx -> Forall delta_clean tx ->
  advanced_tokens y = Some ty -> Forall delta_clean ty ->
  advanced_decompress (flat_map emit tx ++ flat_map emit ty ++ tail)
    (length (flat_map emit tx) + length (flat_map emit ty))
  = Some (Returned (x ++ y)).
Proof.
  intros Hfx Hbx Hfy Hby Htx Hcx Hty Hcy.
  apply compress_loop_tokens_from in Htx, Hty.
  destruct (tokens_from_faithful x 0 tx Hfx Hbx Htx Hcx) as [Hdx Hex].
  destruct (tokens_from_faithful y 0 ty Hfy Hby Hty Hcy) as [Hdy Hey].
  cbn [skipn] in Hex, Hey.
  unfold advanced_decompress.
  rewrite app_assoc, <- flat_map_app, <- length_app, <- flat_map_app.
  rewrite decompress_loop_tokens;
    [|apply Forall_app; split; assumption | apply flat_map_emit_length].
  cbn [app]. now rewrite flat_map_app, Hex, Hey.
Qed.

Lemma streams_concatenate_witness :
  advanced_decompress
    (flat_map emit [CommonRun 5 3] ++ flat_map emit [ZeroRun 4; Literal [0x07]] ++ [])
    (length (flat_map emit [CommonRun 5 3])
     + length (flat_map emit [ZeroRun 4; Literal [0x07]]))
  = Some (Returned ([0xFF; 0xFF; 0xFF] ++ [0x00; 0x00; 0x00; 0x00; 0x07])).
Proof.
  apply (streams_concatenate [0xFF; 0xFF; 0xFF] [0x00; 0x00; 0x00; 0x00; 0x07] []).
  - unfold fits_size_t, SIZE_MODULUS. cbn [length]. lia.
  - unfold is_byte. repeat (apply Forall_cons; [lia|]). apply Forall_nil.
  - unfold fits_size_t, SIZE_MODULUS. cbn [length]. lia.
  - unfold is_byte. repeat (apply Forall_cons; [lia|]). apply Forall_nil.
  - reflexivity.
  - repeat constructor.
  - reflexivity.
  - repeat constructor.
Defined.

(** ** Short tails and zero buffers *)

(** At most two bytes left: every strategy needs three, the rest of the
    input is one literal token. *)
Lemma compress_step_short_tail (data : list Z) (in_pos : nat) :
  (in_pos < length data)%nat ->
  (length data < in_pos + 3)%nat ->
  compress_step data in_pos = Literal (skipn in_pos data).
Proof.
  intros Hpos Hshort.
  assert (Hscan : literal_scan 63 data in_pos 0 = (length data - in_pos)%nat).
  { destruct (literal_scan_bounds 63 data in_pos 0) as [Hl1 Hl2]; [lia|lia|].
    pose proof (literal_scan_stop 63 data in_pos 0 ltac:(lia) ltac:(lia) ltac:(lia))
      as Hstop.
    cbv zeta in Hstop. rewrite Nat.sub_0_r in Hstop.
    set (n := literal_scan 63 data in_pos 0) in *.
    destruct Hstop as [Hend | [H63 | [Hahead | Hdelta]]]; try lia.
    - apply ahead_scan_run_scan in Hahead.
      destruct (le_lt_dec (length data) (in_pos + n)) as [|Hq]; [lia|].
      destruct (run_scan_bounds data (in_pos + n) Hq). lia.
    - destruct (is_delta_sequence data (in_pos + n)) as [[b d] l] eqn:E.
      cbn [fst] in Hdelta. subst b.
      apply is_delta_sequence_true in E. lia. }
  unfold compress_step.
  destruct (zero_run_scan_bounds data in_pos Hpos) as [_ Hz].
  replace (3 <=? zero_run_scan data in_pos)%nat with false
    by (symmetry; apply Nat.leb_gt; lia).
  rewrite andb_false_r.
  destruct (is_delta_sequence data in_pos) as [[is_delta delta] delta_length] eqn:Hdelta.
  destruct is_delta; [apply is_delta_sequence_true in Hdelta; lia|].
  unfold can_nibble_pack.
  destruct (nibble_scan_bounds data in_pos) as [_ Hn]; [lia|].
  replace (4 <=? nibble_scan data in_pos)%nat with false
    by (symmetry; apply Nat.leb_gt; lia).
  destruct (find_pattern_inside data in_pos) as [[Hl Hc] | (Hl & Hc & Hin)]; [|nia].
  rewrite Hc, Hl.
  change ((2 <=? 0)%nat && (2 <=? 0)%nat) with false. cbv iota.
  destruct (run_scan_bounds data in_pos Hpos) as [_ Hr].
  replace (3 <=? run_scan data in_pos)%nat with false
    by (symmetry; apply Nat.leb_gt; lia).
  cbv iota. rewrite Hscan. unfold slice.
  rewrite firstn_all2 by (rewrite length_skipn; lia).
  reflexivity.
Qed.

(** An input of one or two bytes is emitted as one literal token, its
    length followed by its bytes: no strategy applies below three bytes. *)
Theorem short_input_is_literal (data : list Z) :
  (1 <= length data <= 2)%nat ->
  advanced_tokens data = Some [Literal data]
  /\ advanced_compress data = Some (Z.of_nat (length data) :: data).
Proof.
  intros Hlen.
  assert (Htoks : advanced_tokens data = Some [Literal data]).
  { unfold advanced_tokens. rewrite compress_loop_eq.
    replace (0 <? length data)%nat with true by (symmetry; apply Nat.ltb_lt; lia).
    destruct (length data) as [|r] eqn:Hl; [lia|].
    rewrite compress_step_short_tail by lia.
    cbn [skipn coverage Nat.add]. rewrite compress_loop_eq, Hl, Nat.ltb_irrefl.
    reflexivity. }
  split; [exact Htoks|].
  unfold advanced_compress. rewrite Htoks.
  cbn [option_map flat_map emit]. rewrite app_nil_r.
  f_equal. f_equal.
  assert (Hcase : length data = 1%nat \/ length data = 2%nat) by lia.
  destruct Hcase as [-> | ->]; reflexivity.
Qed.

Lemma short_input_is_literal_witness :
  advanced_tokens [0x05; 0x05] = Some [Literal [0x05; 0x05]]
  /\ advanced_compress [0x05; 0x05] = Some (Z.of_nat (length [0x05; 0x05]) :: [0x05; 0x05]).
Proof.
  apply (short_input_is_literal [0x05; 0x05]). cbn [length]. lia.
Defined.

Lemma byte_at_zeros n i : byte_at (repeat 0 n) i = 0.
Proof. unfold byte_at. apply nth_repeat. Qed.

Lemma skipn_zeros n p : skipn p (repeat 0 n) = repeat 0 (n - p).
Proof.
  destruct (le_lt_dec n p) as [Hle | Hlt].
  - rewrite skipn_all2 by (rewrite repeat_length; lia).
    now replace (n - p)%nat with 0%nat by lia.
  - rewrite (skipn_slice _ p (n - p)).
    rewrite (skipn_all2 _ (n := p + (n - p))) by (rewrite repeat_length; lia).
    rewrite app_nil_r.
    apply slice_const; [rewrite repeat_length; lia|].
    intros k _. apply byte_at_zeros.
Qed.

(** In a buffer of zeros the zero-run scan takes all that is left, up to its
    cap. *)
Lemma zero_run_scan_zeros_buffer n p :
  (p < n)%nat -> zero_run_scan (repeat 0 n) p = Nat.min 255 (n - p).
Proof.
  intros Hp.
  destruct (zero_run_scan_bounds (repeat 0 n) p) as [[Hz1 Hz2] Hz3];
    [rewrite repeat_length; lia|].
  rewrite repeat_length in Hz3.
  set (z := zero_run_scan (repeat 0 n) p) in *.
  enough (Hge : (Nat.min 255 (n - p) <= z)%nat) by lia.
  destruct (Nat.eq_dec (Nat.min 255 (n - p)) 1) as [-> | Hne]; [exact Hz1|].
  enough (Hgt : (Nat.min 255 (n - p) - 1 < z)%nat) by lia.
  subst z.
  unfold zero_run_scan.
  apply count_while_past; [lia|].
  intros j Hj. rewrite byte_at_zeros, repeat_length.
  replace (p + j <? n)%nat with true by (symmetry; apply Nat.ltb_lt; lia).
  replace (j <? 255)%nat with true by (symmetry; apply Nat.ltb_lt; lia).
  reflexivity.
Qed.

Lemma compress_step_zeros n p :
  (p + 3 <= n)%nat ->
  compress_step (repeat 0 n) p = ZeroRun (Nat.min 255 (n - p)).
Proof.
  intros Hp. unfold compress_step.
  rewrite byte_at_zeros, zero_run_scan_zeros_buffer by lia.
  replace (3 <=? Nat.min 255 (n - p))%nat with true
    by (symmetry; apply Nat.leb_le; lia).
  reflexivity.
Qed.

Lemma compress_loop_zeros n :
  forall q p r rounds,
    n = (p + 255 * q + r)%nat -> (r < 255)%nat -> (n - p <= rounds)%nat ->
    compress_loop rounds (repeat 0 n) p
    = Some (repeat (ZeroRun 255) q ++ zero_tail_tokens r).
Proof.
  assert (Hdone : forall rounds, compress_loop rounds (repeat 0 n) n = Some []).
  { intros rounds. rewrite compress_loop_eq, repeat_length, Nat.ltb_irrefl.
    reflexivity. }
  induction q as [|q IH]; intros p r rounds Hn Hr Hrounds.
  - cbn [repeat app]. unfold zero_tail_tokens.
    destruct (r =? 0)%nat eqn:Hr0; to_prop.
    { replace p with n by lia. apply Hdone. }
    rewrite compress_loop_eq, repeat_length.
    replace (p <? n)%nat with true by (symmetry; apply Nat.ltb_lt; lia).
    destruct rounds as [|rounds]; [lia|].
    destruct (r <? 3)%nat eqn:Hr3; to_prop.
    + rewrite compress_step_short_tail by (rewrite repeat_length; lia).
      rewrite skipn_zeros. cbn [coverage]. rewrite repeat_length.
      replace (p + (n - p))%nat with n by lia.
      rewrite Hdone. cbn [option_map]. now replace (n - p)%nat with r by lia.
    + rewrite compress_step_zeros by lia.
      replace (Nat.min 255 (n - p)) with r by lia.
      cbn [coverage]. replace (p + r)%nat with n by lia.
      rewrite Hdone. reflexivity.
  - rewrite compress_loop_eq, repeat_length.
    replace (p <? n)%nat with true by (symmetry; apply Nat.ltb_lt; lia).
    destruct rounds as [|rounds]; [lia|].
    rewrite compress_step_zeros by lia.
    replace (Nat.min 255 (n - p)) with 255%nat by lia.
    cbn [coverage]. rewrite (IH (p + 255)%nat r rounds) by lia.
    reflexivity.
Qed.

Lemma zero_buffer_tokens_no_delta q r :
  Forall no_escape (repeat (ZeroRun 255) q ++ zero_tail_tokens r).
Proof.
  apply Forall_app. split.
  - apply Forall_forall. intros t Ht. apply repeat_spec in Ht. subst t. exact I.
  - unfold zero_tail_tokens.
    destruct (r =? 0)%nat; [constructor|].
    destruct (r <? 3)%nat; repeat constructor.
Qed.

(** Zero-run chunking: a buffer of [n] zeros is emitted as [n / 255] zero
    runs of 255, followed, for the [n mod 255] zeros left, by one zero run
    when at least three are left and by one literal token when one or two
    are; the output has at most [2 * (n / 255) + 3] bytes and decodes to the
    buffer. *)
Theorem zero_buffer_round_trip (n : nat) (tail : list Z) :
  fits_size_t (repeat 0 n) ->
  exists enc,
    advanced_tokens (repeat 0 n)
    = Some (repeat (ZeroRun 255) (n / 255) ++ zero_tail_tokens (n mod 255))
    /\ advanced_compress (repeat 0 n) = Some enc
    /\ (length enc <= 2 * (n / 255) + 3)%nat
    /\ advanced_decompress (enc ++ tail) (length enc) = Some (Returned (repeat 0 n)).
Proof.
  intros Hfit.
  assert (Htoks : advanced_tokens (repeat 0 n)
                  = Some (repeat (ZeroRun 255) (n / 255)
                          ++ zero_tail_tokens (n mod 255))).
  { unfold advanced_tokens. rewrite repeat_length.
    apply compress_loop_zeros.
    - pose proof (Nat.div_mod_eq n 255). lia.
    - apply Nat.mod_upper_bound. lia.
    - lia. }
  eexists. split; [exact Htoks|].
  split; [unfold advanced_compress; rewrite Htoks; reflexivity|].
  split.
  - rewrite flat_map_app, length_app.
    assert (Hfull : forall q, length (flat_map emit (repeat (ZeroRun 255) q))
                              = (2 * q)%nat).
    { induction q as [|q IH]; [reflexivity|].
      cbn [repeat flat_map]. rewrite length_app, IH. cbn [emit length]. lia. }
    rewrite Hfull.
    unfold zero_tail_tokens.
    destruct (n mod 255 =? 0)%nat; [cbn; lia|].
    destruct (n mod 255 <? 3)%nat eqn:Hr; to_prop.
    + cbn [flat_map emit]. rewrite app_nil_r. cbn [length].
      rewrite repeat_length. lia.
    + cbn; lia.
  - apply (round_trip_restricted _ tail _); try assumption.
    + apply Forall_forall. intros b Hb. apply repeat_spec in Hb. lia.
    + apply zero_buffer_tokens_no_delta.
Qed.

Lemma zero_buffer_round_trip_witness :
  exists enc,
    advanced_tokens (repeat 0 300)
    = Some (repeat (ZeroRun 255) (300 / 255) ++ zero_tail_tokens (300 mod 255))
    /\ advanced_compress (repeat 0 300) = Some enc
    /\ (length enc <= 2 * (300 / 255) + 3)%nat
    /\ advanced_decompress (enc ++ []) (length enc) = Some (Returned (repeat 0 300)).
Proof.
  apply (zero_buffer_round_trip 300 []).
  unfold fits_size_t, SIZE_MODULUS. rewrite repeat_length. lia.
Defined.

(** ** The encoder looks forward of its cursor only *)

Lemma count_while_ext rounds (c1 c2 : nat -> bool) :
  forall n,
    (forall j, (n <= j)%nat -> c1 j = c2 j) ->
    count_while rounds c1 n = count_while rounds c2 n.
Proof.
  induction rounds as [|r IH]; intros n Hext; cbn [count_while]; [reflexivity|].
  rewrite (Hext n) by lia.
  destruct (c2 n); [|reflexivity].
  apply IH. intros j Hj. apply Hext. lia.
Qed.

(** More rounds do not change a loop that has stopped. *)
Lemma count_while_enough cond rounds :
  forall n rounds',
    (rounds <= rounds')%nat ->
    (count_while rounds cond n < n + rounds)%nat ->
    count_while rounds' cond n = count_while rounds cond n.
Proof.
  induction rounds as [|r IH]; intros n rounds' Hle Hlt; cbn [count_while] in *;
    [lia|].
  destruct rounds' as [|r']; [lia|]. cbn [count_while].
  destruct (cond n); [|reflexivity].
  apply IH; lia.
Qed.

Lemma byte_at_shift pre l k :
  byte_at (pre ++ l) (length pre + k) = byte_at l k.
Proof. unfold byte_at. apply app_nth2_plus. Qed.

Lemma ltb_shift_l pre (l : list Z) a :
  (length pre + a <? length (pre ++ l))%nat = (a <? length l)%nat.
Proof. rewrite length_app. apply ltb_shift. Qed.

Lemma leb_shift_l pre (l : list Z) a :
  (length pre + a <=? length (pre ++ l))%nat = (a <=? length l)%nat.
Proof.
  rewrite length_app.
  destruct (a <=? length l)%nat eqn:E; to_prop;
    [apply Nat.leb_le | apply Nat.leb_gt]; lia.
Qed.

Lemma zero_run_scan_shift pre l k :
  zero_run_scan (pre ++ l) (length pre + k) = zero_run_scan l k.
Proof.
  unfold zero_run_scan. apply count_while_ext. intros j _.
  now rewrite <- !Nat.add_assoc, ltb_shift_l, byte_at_shift.
Qed.

Lemma run_scan_shift pre l k :
  run_scan (pre ++ l) (length pre + k) = run_scan l k.
Proof.
  unfold run_scan. apply count_while_ext. intros j _.
  rewrite <- !Nat.add_assoc, ltb_shift_l, !byte_at_shift.
  now rewrite <- (Nat.add_0_r k) at 2; rewrite Nat.add_0_r.
Qed.

Lemma delta_scan_shift pre l k delta :
  delta_scan (pre ++ l) (length pre + k) delta = delta_scan l k delta.
Proof.
  unfold delta_scan. apply count_while_ext. intros j Hj. cbv zeta.
  replace (length pre + k + j - 1)%nat with (length pre + (k + j - 1))%nat by lia.
  now rewrite <- !Nat.add_assoc, ltb_shift_l, !byte_at_shift.
Qed.

Lemma is_delta_sequence_shift pre l k :
  is_delta_sequence (pre ++ l) (length pre + k) = is_delta_sequence l k.
Proof.
  unfold is_delta_sequence.
  replace (length (pre ++ l) <? length pre + k + 2)%nat with (length l <? k + 2)%nat
    by (rewrite length_app;
        destruct (length l <? k + 2)%nat eqn:E; symmetry; to_prop;
        [apply Nat.ltb_lt | apply Nat.ltb_ge]; lia).
  rewrite <- !Nat.add_assoc, !byte_at_shift, delta_scan_shift.
  reflexivity.
Qed.

Lemma nibble_scan_shift pre l k :
  nibble_scan (pre ++ l) (length pre + k) = nibble_scan l k.
Proof.
  unfold nibble_scan. apply count_while_ext. intros j _. cbv zeta.
  rewrite <- !Nat.add_assoc, ltb_shift_l, byte_at_shift, ltb_shift.
  reflexivity.
Qed.

Lemma ahead_scan_shift pre l k :
  ahead_scan (pre ++ l) (length pre + k) = ahead_scan l k.
Proof.
  unfold ahead_scan.
  rewrite <- !Nat.add_assoc, ltb_shift_l.
  destruct (k + 1 <? length l)%nat eqn:Hk; [|reflexivity]. to_prop.
  set (c := fun ahead_run =>
              (k + ahead_run <? length l)%nat
              && (byte_at l (k + ahead_run) =? byte_at l k)).
  rewrite (count_while_ext _ _ c).
  - apply count_while_enough; [rewrite length_app; lia|].
    enough (H : (1 <= count_while (length l) c 1)%nat
                /\ (k + count_while (length l) c 1 <= length l)%nat) by lia.
    apply (count_while_inv (fun a => (1 <= a)%nat /\ (k + a <= length l)%nat)).
    + intros a Ha Hc. unfold c in Hc. to_prop. lia.
    + lia.
  - intros j _. unfold c.
    rewrite <- !Nat.add_assoc, ltb_shift_l, !byte_at_shift.
    now rewrite <- (Nat.add_0_r k) at 2; rewrite Nat.add_0_r.
Qed.

Lemma forallb_pointwise {A : Type} (f g : A -> bool) (xs : list A) :
  (forall x, f x = g x) -> forallb f xs = forallb g xs.
Proof.
  intros H. induction xs as [|x xs IH]; cbn [forallb]; [reflexivity|].
  now rewrite H, IH.
Qed.

Lemma memcmp_eq_shift pre l a b len :
  memcmp_eq (pre ++ l) (length pre + a) (length pre + b) len = memcmp_eq l a b len.
Proof.
  unfold memcmp_eq. apply forallb_pointwise. intros j.
  now rewrite <- !Nat.add_assoc, !byte_at_shift.
Qed.

Lemma count_matches_shift pre l k pattern_len :
  (1 <= pattern_len)%nat ->
  (k + pattern_len * 2 <= length l)%nat ->
  count_matches (pre ++ l) (length pre + k) pattern_len = count_matches l k pattern_len.
Proof.
  intros Hlen Hguard. unfold count_matches.
  set (c := fun matches =>
              (k + matches * pattern_len + pattern_len <=? length l)%nat
              && memcmp_eq l k (k + matches * pattern_len) pattern_len).
  rewrite (count_while_ext _ _ c).
  - apply count_while_enough; [rewrite length_app; lia|].
    destruct (count_matches_bounds l k pattern_len Hguard) as [H1 H2].
    fold c in H2. unfold count_matches in H1, H2. fold c in H1, H2. nia.
  - intros j _. unfold c. cbv zeta.
    rewrite <- !Nat.add_assoc, leb_shift_l, memcmp_eq_shift.
    reflexivity.
Qed.

Lemma consider_pattern_shift pre l k pattern_len best :
  (1 <= pattern_len)%nat ->
  (k + pattern_len * 2 <= length l)%nat ->
  consider_pattern (pre ++ l) (length pre + k) pattern_len best
  = consider_pattern l k pattern_len best.
Proof.
  intros Hlen Hguard. unfold consider_pattern.
  now rewrite count_matches_shift, slice_shift by assumption.
Qed.

Lemma find_pattern_loop_shift rounds pre l k :
  forall pattern_len best,
    (1 <= pattern_len)%nat ->
    find_pattern_loop rounds (pre ++ l) (length pre + k) pattern_len best
    = find_pattern_loop rounds l k pattern_len best.
Proof.
  induction rounds as [|r IH]; intros pattern_len best Hlen;
    cbn [find_pattern_loop]; [reflexivity|].
  rewrite <- !Nat.add_assoc, leb_shift_l.
  destruct ((pattern_len <=? 16)%nat && (k + pattern_len * 2 <=? length l)%nat)
    eqn:Hguard; [|reflexivity].
  to_prop.
  rewrite consider_pattern_shift by assumption.
  apply IH. lia.
Qed.

Lemma literal_scan_shift rounds pre l :
  forall k literal_count,
    literal_scan rounds (pre ++ l) (length pre + k) literal_count
    = literal_scan rounds l k literal_count.
Proof.
  induction rounds as [|r IH]; intros k literal_count; [reflexivity|].
  rewrite !literal_scan_S.
  rewrite ltb_shift_l, ahead_scan_shift, is_delta_sequence_shift, plus_n_Sm, IH.
  reflexivity.
Qed.

(** One round of the encoder depends on the bytes from the cursor on only. *)
Lemma compress_step_shift pre l k :
  compress_step (pre ++ l) (length pre + k) = compress_step l k.
Proof.
  unfold compress_step, can_nibble_pack.
  rewrite (byte_at_shift pre l k), (zero_run_scan_shift pre l k),
    (is_delta_sequence_shift pre l k), (nibble_scan_shift pre l k),
    (run_scan_shift pre l k), (literal_scan_shift 63 pre l k 0).
  rewrite (slice_shift pre l k (nibble_scan l k)).
  rewrite (slice_shift pre l k (literal_scan 63 l k 0)).
  assert (Hfind : find_pattern (pre ++ l) (length pre + k) = find_pattern l k)
    by (apply find_pattern_loop_shift; lia).
  rewrite Hfind.
  reflexivity.
Qed.

Lemma tokens_from_shift pre l toks :
  forall p, tokens_from (pre ++ l) p toks ->
  forall k, p = (length pre + k)%nat -> tokens_from l k toks.
Proof.
  induction 1 as [p Hend | p rest Hpos Hrest IH]; intros k ->.
  - constructor. rewrite length_app in Hend. lia.
  - rewrite compress_step_shift in *.
    constructor; [rewrite length_app in Hpos; lia|].
    apply IH. lia.
Qed.

Lemma tokens_from_functional data p toks1 :
  tokens_from data p toks1 ->
  forall toks2, tokens_from data p toks2 -> toks1 = toks2.
Proof.
  induction 1 as [p Hend | p rest Hpos Hrest IH]; intros toks2 H2;
    inversion H2; subst; try lia; [reflexivity|].
  f_equal. now apply IH.
Qed.

Lemma tokens_from_split data toks1 toks2 :
  forall p,
    tokens_from data p (toks1 ++ toks2) ->
    tokens_from data (p + list_sum (map coverage toks1)) toks2.
Proof.
  induction toks1 as [|t rest IH]; intros p H.
  - cbn. now rewrite Nat.add_0_r.
  - cbn [app] in H. inversion H; subst.
    cbn [map list_sum fold_right].
    change (fold_right Nat.add 0%nat (map coverage rest))
      with (list_sum (map coverage rest)).
    rewrite Nat.add_assoc. now apply IH.
Qed.

(** The encoder can be restarted at any token boundary: the tokens that
    follow a prefix of the tokens of an input are the tokens of the input
    without the bytes this prefix covers. *)
Theorem encoder_restarts_at_token_boundary (data : list Z) (done rest : list token) :
  advanced_tokens data = Some (done ++ rest) ->
  advanced_tokens (skipn (list_sum (map coverage done)) data) = Some rest.
Proof.
  intros Htoks.
  apply compress_loop_tokens_from in Htoks.
  pose proof (tokens_from_split data done rest 0 Htoks) as Hrest.
  cbn [Nat.add] in Hrest.
  set (c := list_sum (map coverage done)) in *.
  assert (Hc : (c <= length data)%nat).
  { destruct (tokens_from_bounds data 0 _ Htoks ltac:(lia)) as (Hsum & _ & _).
    rewrite map_app, list_sum_app in Hsum. fold c in Hsum. lia. }
  assert (Hsuffix : tokens_from (skipn c data) 0 rest).
  { apply (tokens_from_shift (firstn c data) (skipn c data) rest c).
    - now rewrite firstn_skipn.
    - rewrite length_firstn. lia. }
  destruct (advanced_compress_total (skipn c data)) as [toks' Htoks'].
  rewrite Htoks'. f_equal.
  apply compress_loop_tokens_from in Htoks'.
  exact (tokens_from_functional _ _ _ Htoks' _ Hsuffix).
Qed.

Lemma encoder_restarts_at_token_boundary_witness :
  advanced_tokens
    (skipn (list_sum (map coverage [Literal [0x03; 0x74]; Delta 0x04 0 3]))
       worked_vector)
  = Some [Literal [0x35; 0x35]; Delta 0x64 0 4; ZeroRun 5; Literal [0x56; 0x45];
          Delta 0x56 0 3; Delta 0x09 0 3].
Proof.
  apply (encoder_restarts_at_token_boundary worked_vector
           [Literal [0x03; 0x74]; Delta 0x04 0 3]).
  reflexivity.
Defined.

(** ** The decoder on well-formed streams *)

(** The decoder implements the token format: on the bytes of any list of
    decodable tokens, chosen by this encoder or not, it returns the
    concatenation of what the tokens stand for, whatever follows the stream
    in the buffer. *)
Theorem decoder_expands_tokens (toks : list token) (tail : list Z) :
  Forall decodable toks ->
  advanced_decompress (flat_map emit toks ++ tail) (length (flat_map emit toks))
  = Some (Returned (flat_map expand toks)).
Proof.
  intros Hall. unfold advanced_decompress.
  rewrite decompress_loop_tokens; [reflexivity|assumption|apply flat_map_emit_length].
Qed.

Lemma decoder_expands_tokens_witness :
  advanced_decompress
    (flat_map emit [Run 0x41 63; Delta 0x7E 1 4; Nibble [1; 2; 3]] ++ [])
    (length (flat_map emit [Run 0x41 63; Delta 0x7E 1 4; Nibble [1; 2; 3]]))
  = Some (Returned (flat_map expand [Run 0x41 63; Delta 0x7E 1 4; Nibble [1; 2; 3]])).
Proof.
  apply (decoder_expands_tokens [Run 0x41 63; Delta 0x7E 1 4; Nibble [1; 2; 3]] []).
  repeat constructor; cbn; lia.
Defined.

Lemma pattern_info_check_ok pattern_len repeat_count :
  (pattern_len < 16)%nat -> (repeat_count < 16)%nat ->
  pattern_info_check pattern_len repeat_count = true.
Proof.
  intros Hl Hc.
  assert (H : forallb (pattern_info_check pattern_len) (seq 0 16) = true).
  { revert pattern_len Hl.
    apply (below_forallb (fun n => forallb (pattern_info_check n) (seq 0 16)) 16).
    now vm_compute. }
  now apply (below_forallb _ 16 H).
Qed.

Lemma pattern_copies_unit repeat_count x y unit post :
  (1 <= length unit)%nat ->
  pattern_copies repeat_count (x :: y :: unit ++ post) 2 (length unit)
  = Returned (concat (repeat unit repeat_count)).
Proof.
  intros Hlen.
  assert (Hblock : read_block (x :: y :: unit ++ post) 2 (length unit) = Returned unit).
  { unfold read_block.
    replace (length unit =? 0)%nat with false by (symmetry; apply Nat.eqb_neq; lia).
    replace (2 + length unit <=? length (x :: y :: unit ++ post))%nat with true
      by (symmetry; apply Nat.leb_le; cbn [length]; rewrite length_app; lia).
    unfold slice. cbn [skipn].
    rewrite firstn_app, firstn_all, Nat.sub_diag. cbn [firstn].
    now rewrite app_nil_r. }
  induction repeat_count as [|r IH]; cbn [pattern_copies repeat concat];
    [reflexivity|].
  rewrite Hblock, IH. reflexivity.
Qed.

(** The pattern escape, which this encoder never writes: at any cursor, the
    escape code, an info byte holding a unit length 1..15 and a count 0..15,
    and the unit are decoded to that many copies of the unit. *)
Theorem pattern_escape_expands (pre unit post : list Z) (repeat_count : nat) :
  (1 <= length unit <= 15)%nat ->
  (repeat_count <= 15)%nat ->
  decode_step
    (pre ++ EXT_PATTERN
         :: u8 (Z.lor (Z.shiftl (Z.of_nat (length unit)) 4)
                      (Z.land (Z.of_nat repeat_count) 0x0F))
         :: unit ++ post)
    (length pre)
  = Returned ((length pre + (2 + length unit))%nat, concat (repeat unit repeat_count)).
Proof.
  intros Hlen Hcount.
  rewrite <- (Nat.add_0_r (length pre)) at 1.
  rewrite decode_step_shift.
  pose proof (pattern_info_check_ok (length unit) repeat_count ltac:(lia) ltac:(lia))
    as Hinfo.
  unfold pattern_info_check in Hinfo. cbv zeta in Hinfo.
  apply andb_true_iff in Hinfo. destruct Hinfo as [H1 H2].
  apply Nat.eqb_eq in H1, H2.
  set (info := u8 (Z.lor (Z.shiftl (Z.of_nat (length unit)) 4)
                         (Z.land (Z.of_nat repeat_count) 0x0F))) in *.
  unfold decode_step.
  change (read_byte (EXT_PATTERN :: info :: unit ++ post) 0)
    with (Returned (A := Z) EXT_PATTERN).
  cbn [bind].
  change (EXT_PATTERN =? EXT_ZERO_RUN) with false.
  change (EXT_PATTERN =? EXT_PATTERN) with true. cbv iota.
  change (read_byte (EXT_PATTERN :: info :: unit ++ post) 1)
    with (Returned (A := Z) info).
  cbn [bind]. rewrite H1, H2.
  rewrite pattern_copies_unit by lia.
  reflexivity.
Qed.

Lemma pattern_escape_expands_witness :
  decode_step
    ([] ++ EXT_PATTERN
        :: u8 (Z.lor (Z.shiftl (Z.of_nat (length [0x12; 0x34])) 4)
                     (Z.land (Z.of_nat 10) 0x0F))
        :: [0x12; 0x34] ++ [])
    (length (@nil Z))
  = Returned ((length (@nil Z) + (2 + length [0x12; 0x34]))%nat,
              concat (repeat [0x12; 0x34] 10)).
Proof.
  apply (pattern_escape_expands [] [0x12; 0x34] [] 10); cbn [length]; lia.
Defined.

(** ** Streams cut inside a token *)






